(** * organize: the rule-matching and action-execution engine of [organize/cli.py]

    The development embeds [all_pathes], [find_jobs] and [execute_rules] of
    [src/organize/cli.py] together with the part of [pathlib] they call, and
    proves the properties the specification states about them.

    - [Pathlib]: paths as their list of parts, [PosixPath], [fnmatch], path
      comparison; [OS], [expanduser] and [glob] for what needs the
      operating system.
    - [Builtins]: Python's stable [sorted] with a key, and [x[0]].
    - [Engine]: filters, actions, rules, jobs, the monad with its trace of
      events, the three functions of [cli.py], and the vocabulary in which
      their traces are read.
    - [MemFS]: a small in-memory operating system with sample filters,
      actions and rules, on which the definitions are evaluated.
    - [Observations], [Listing], [Cli], [Samples]: more ways to read a
      trace, [list_actions_and_filters] with its [heading] and [content],
      and [cli].
    - [PathlibFacts], [BuiltinsFacts], [EngineFacts]: the properties;
      [Scenarios]: the engine on the sample world.
    - [EngineMore], [ListingFacts], [CliFacts], [MoreScenarios]: further
      properties of the same code and of its callers. *)

From Stdlib Require Import List String Ascii Bool Arith ZArith Lia.
From Stdlib Require Import Sorting.Sorted Sorting.Permutation.
From Stdlib Require Import RelationClasses Structures.OrdersEx.
Import ListNotations.

Set Implicit Arguments.

(** ** Exceptions and results *)

(** The exceptions the engine can see.  [IndexError] is what [x[0]] raises on
    an empty list; the others come from the operating system or from the
    filters and actions, which may raise anything. *)
Inductive exn : Type :=
| IndexError
| PermissionError
| RuntimeError
| OtherError (name : string).

Inductive result (A : Type) : Type :=
| Ok (a : A)
| Err (e : exn).

Arguments Ok {A} a.
Arguments Err {A} e.

Definition is_ok {A} (r : result A) : bool :=
  match r with Ok _ => true | Err _ => false end.

(** ** pathlib *)

Module Pathlib.

(** A [PurePosixPath] is its [_parts] list: the root (["/"] or ["//"]) first
    when the path is absolute, then the components. *)
Definition Path := list string.

Definition sep : ascii := "/"%char.

(** [str.split(sep)] *)
Fixpoint split (s : string) : list string :=
  match s with
  | EmptyString => [EmptyString]
  | String c s' =>
      if Ascii.eqb c sep then EmptyString :: split s'
      else match split s' with
           | [] => [String c EmptyString]
           | x :: xs => String c x :: xs
           end
  end.

(** [str.lstrip(sep)] *)
Fixpoint lstrip (s : string) : string :=
  match s with
  | String c s' => if Ascii.eqb c sep then lstrip s' else s
  | EmptyString => s
  end.

(** [_PosixFlavour.splitroot]: exactly two leading slashes are kept as the
    root ["//"], any other number of them is the root ["/"]. *)
Definition splitroot (part : string) : string * string :=
  match part with
  | String c _ =>
      if Ascii.eqb c sep then
        let stripped := lstrip part in
        if Nat.eqb (String.length part - String.length stripped) 2
        then ("//"%string, stripped)
        else ("/"%string, stripped)
      else (EmptyString, part)
  | EmptyString => (EmptyString, part)
  end.

Definition is_component (x : string) : bool :=
  negb (String.eqb x EmptyString) && negb (String.eqb x ".").

(** [Path(s)] for one string argument: [_parse_parts]. *)
Definition PosixPath (s : string) : Path :=
  let '(root, rel) := splitroot s in
  (if String.eqb root EmptyString then [] else [root])
    ++ filter is_component (split rel).

(** [Path._make_child_relpath] *)
Definition make_child_relpath (parent : Path) (name : string) : Path :=
  parent ++ [name].

(** [fnmatch] for patterns made of literal characters, [*] and [?]. *)
Fixpoint fnmatch (pat : list ascii) : list ascii -> bool :=
  match pat with
  | [] => fun name => match name with [] => true | _ :: _ => false end
  | c :: pat' =>
      if Ascii.eqb c "*" then
        fix star (name : list ascii) : bool :=
          fnmatch pat' name
          || match name with [] => false | _ :: name' => star name' end
      else if Ascii.eqb c "?" then
        fun name => match name with [] => false | _ :: name' => fnmatch pat' name' end
      else
        fun name => match name with
                    | [] => false
                    | d :: name' => Ascii.eqb c d && fnmatch pat' name'
                    end
  end.

Definition star_dot_star : string := "*.*".

Definition name_matches (pat name : string) : bool :=
  fnmatch (list_ascii_of_string pat) (list_ascii_of_string name).

(** Comparison of two paths is the comparison of their part lists
    ([PurePath.__lt__] compares [_cparts]): lexicographic, each part compared
    as a string, a proper prefix being smaller. *)
Fixpoint path_compare (a b : Path) : comparison :=
  match a, b with
  | [], [] => Eq
  | [], _ :: _ => Lt
  | _ :: _, [] => Gt
  | x :: a', y :: b' =>
      match String_as_OT.compare x y with
      | Eq => path_compare a' b'
      | Lt => Lt
      | Gt => Gt
      end
  end.

Definition path_ltb (a b : Path) : bool :=
  match path_compare a b with Lt => true | _ => false end.

Definition path_lt (a b : Path) : Prop := path_compare a b = Lt.

(** [a <= b], that is, not [b < a]. *)
Definition path_le (a b : Path) : Prop := path_compare a b <> Gt.

End Pathlib.

Import Pathlib.

(** ** Builtins *)

Module Builtins.

Section Sorted.
Context {A : Type} (key : A -> Path).

(** Insertion of [x] in front of the first element whose key is not
    smaller: elements with equal keys keep their relative order. *)
Fixpoint insort (x : A) (l : list A) : list A :=
  match l with
  | [] => [x]
  | y :: l' => if path_ltb (key y) (key x) then y :: insort x l' else x :: l
  end.

(** [sorted(l, key=key)].  Python's sort is stable and compares keys with
    [<] only; the result of any stable sort is the one computed here. *)
Fixpoint sorted (l : list A) : list A :=
  match l with
  | [] => []
  | x :: l' => insort x (sorted l')
  end.
(** What the result of [sorted] is specified with: the order of the keys,
    and the selection of the elements with one key. *)
Definition key_le (x y : A) : Prop := path_le (key x) (key y).

Definition has_key (k : Path) (x : A) : bool :=
  match path_compare (key x) k with Eq => true | _ => false end.
End Sorted.

(** [x[0]] on a list, the body of the local [first] of [execute_rules]. *)
Definition first {A} (x : list A) : result A :=
  match x with
  | [] => Err IndexError
  | a :: _ => Ok a
  end.

End Builtins.

Import Builtins.

(** ** The operating system *)

(** What [cli.py] asks of the operating system through [pathlib].  [World] is
    everything a filter or an action can read or change: the file tree, the
    environment, the state of the filter and action objects. *)
Class OS (World : Type) : Type := {
  (** [_PosixFlavour.gethomedir]: [$HOME] or the password database; raises
      [RuntimeError] when the user is unknown. *)
  gethomedir : World -> string -> result string;
  (** [Path.is_dir]: whether [stat] says directory; false when [stat] fails
      with ENOENT, ENOTDIR, EBADF or ELOOP (the path does not exist, a part
      of it is not a directory); any other [OSError] of [stat] (EACCES below
      a directory that may not be searched, ENAMETOOLONG) is raised. *)
  is_dir : World -> Path -> result bool;
  (** [os.listdir]: the names of the entries of a directory. *)
  listdir : World -> Path -> result (list string);
  (** [Path.resolve]: the absolute path with symbolic links followed. *)
  resolve : World -> Path -> result Path
}.

Section PathlibOS.
Context {World : Type} {os : OS World}.

(** [Path.expanduser]: a relative path whose first part starts with [~]
    has that part replaced by the home directory of the user named after
    the tilde. *)
Definition expanduser (w : World) (p : Path) : result Path :=
  match p with
  | String c username :: rest =>
      if Ascii.eqb c "~" then
        match gethomedir w username with
        | Ok homedir => Ok (PosixPath homedir ++ rest)
        | Err e => Err e
        end
      else Ok p
  | _ => Ok p
  end.

(** [Path.glob(pattern)] for a pattern of one component without [**]
    ([_WildcardSelector] followed by [_TerminatingSelector]).  The selector
    first asks whether the parent is a directory, outside any handler: what
    [is_dir] raises is raised.  It yields nothing when the parent is not a
    directory, otherwise the children whose name matches the pattern, in
    listing order; a [PermissionError] while listing is swallowed. *)
Definition glob (w : World) (parent : Path) (pattern : string)
  : result (list Path) :=
  match is_dir w parent with
  | Err e => Err e
  | Ok false => Ok []
  | Ok true =>
      match listdir w parent with
      | Ok names =>
          Ok (map (make_child_relpath parent)
                (filter (name_matches pattern) names))
      | Err PermissionError => Ok []
      | Err e => Err e
      end
  end.
End PathlibOS.

(** ** The engine of [cli.py] *)

Module Engine.

Section Engine.
Context {World Attrs : Type} {os : OS World}.

(** Modelled from the spec: the filter classes of [organize.filters] are
    not among the sources.  Section 3 gives their interface,
    [matches(path) -> bool] and [parse(path) -> AttributeBundle], and
    [cli.py] calls nothing else on them.  A call runs in the current world,
    may change it, and either returns or raises. *)
Record Filter : Type := {
  matches : Path -> World -> World * result bool;
  parse : Path -> World -> World * result Attrs
}.

(** Modelled from the spec: the action classes of [organize.actions] are
    not among the sources.  Section 3 gives their interface,
    [run(path, attributes, simulate) -> Optional[path]]. *)
Record Action : Type := {
  run : Path -> Attrs -> bool -> World -> World * result (option Path)
}.

(** Modelled from the spec: [Rule] is built by [organize.config], which is
    not among the sources.  Section 3 gives its fields; [cli.py] reads
    [rule.folders], [rule.filters] and [rule.actions]. *)
Record Rule : Type := {
  folders : list string;
  filters : list Filter;
  actions : list Action
}.

(** [namedtuple('Job', 'path filters actions')]; the last two fields are
    prefixed because [Rule] has fields of the same names. *)
Record Job : Type := {
  path : Path;
  job_filters : list Filter;
  job_actions : list Action
}.

(** What the engine does that can be observed from outside, in order: the
    calls it makes (with the world each call starts in) and what it
    prints and logs. *)
Inductive Event : Type :=
| EvGlob (folder : string) (w : World)
| EvMatches (f : Filter) (p : Path) (w : World)
| EvParse (f : Filter) (p : Path) (w : World)
| EvResolve (p : Path) (w : World)
| EvRun (a : Action) (p : Path) (file_attributes : Attrs) (simulate : bool)
    (w : World)
| EvPrint (s : string)
| EvLogInfo (p : Path)
| EvLogDebug (jobs : list Job).

(** *** The monad: world passing, a trace of events, exceptions *)

Record Outcome (A : Type) : Type := {
  world_after : World;
  trace : list Event;
  value : result A
}.

Definition M (A : Type) : Type := World -> Outcome A.

Definition ret {A} (a : A) : M A :=
  fun w => {| world_after := w; trace := []; value := Ok a |}.

Definition raise {A} (e : exn) : M A :=
  fun w => {| world_after := w; trace := []; value := Err e |}.

(** An exception of the first computation ends the whole; nothing
    catches it. *)
Definition bind {A B} (m : M A) (k : A -> M B) : M B :=
  fun w =>
    let o := m w in
    match value o with
    | Err e => {| world_after := world_after o; trace := trace o; value := Err e |}
    | Ok a =>
        let o' := k a (world_after o) in
        {| world_after := world_after o';
           trace := trace o ++ trace o';
           value := value o' |}
    end.

Definition lift {A} (r : result A) : M A :=
  match r with Ok a => ret a | Err e => raise e end.

Definition emit (ev : Event) : M unit :=
  fun w => {| world_after := w; trace := [ev]; value := Ok tt |}.

(** A call of a filter or action method. *)
Definition call {A} (ev : World -> Event) (method : World -> World * result A)
  : M A :=
  fun w =>
    {| world_after := fst (method w); trace := [ev w]; value := snd (method w) |}.

(** A query to the operating system: the world is read, not changed. *)
Definition ask {A} (ev : World -> Event) (query : World -> result A) : M A :=
  fun w => {| world_after := w; trace := [ev w]; value := query w |}.


Notation "x <- m ;; k" := (bind m (fun x => k))
  (at level 61, m at next level, right associativity).

(** *** [all_pathes] *)

(** A generator that delegates to one iterable per step is the list of its
    suspended steps: each step runs when the consumer first asks for an item
    of it, in the world of that moment, and produces its whole batch (the
    directory is listed at once). *)
Definition Generator (A : Type) : Type := list (M (list A)).

(** [Path(folder).expanduser().glob('*.*')] *)
Definition glob_folder (folder : string) (w : World) : result (list Path) :=
  match expanduser w (PosixPath folder) with
  | Ok dir => glob w dir star_dot_star
  | Err e => Err e
  end.

Definition all_pathes (rule : Rule) : Generator Path :=
  map (fun folder => ask (EvGlob folder) (glob_folder folder)) (folders rule).

(** [list(gen)]: the generator run to its end with nothing in between. *)
Fixpoint exhaust {A} (gen : Generator A) : M (list A) :=
  match gen with
  | [] => ret []
  | step :: gen' =>
      batch <- step ;;
      others <- exhaust gen' ;;
      ret (batch ++ others)
  end.

(** *** [find_jobs] *)

(** [all(f.matches(path) for f in fs)]: stops at the first filter that does
    not match. *)
Fixpoint all_match (fs : list Filter) (p : Path) : M bool :=
  match fs with
  | [] => ret true
  | f :: fs' =>
      b <- call (EvMatches f p) (matches f p) ;;
      if b then all_match fs' p else ret false
  end.

Definition job_of (rule : Rule) (p : Path) : Job :=
  {| path := p; job_filters := filters rule; job_actions := actions rule |}.

(** The body of [for path in all_pathes(rule)] over one batch of the
    generator; [result] is the list being appended to. *)
Fixpoint for_paths (rule : Rule) (batch : list Path) (result : list Job)
  : M (list Job) :=
  match batch with
  | [] => ret result
  | p :: batch' =>
      ok <- all_match (filters rule) p ;;
      for_paths rule batch' (if ok then result ++ [job_of rule p] else result)
  end.

Fixpoint for_batches (rule : Rule) (gen : Generator Path) (result : list Job)
  : M (list Job) :=
  match gen with
  | [] => ret result
  | step :: gen' =>
      batch <- step ;;
      result' <- for_paths rule batch result ;;
      for_batches rule gen' result'
  end.

Fixpoint for_rules (rules : list Rule) (result : list Job) : M (list Job) :=
  match rules with
  | [] => ret result
  | rule :: rules' =>
      result' <- for_batches rule (all_pathes rule) result ;;
      for_rules rules' result'
  end.

Definition find_jobs (rules : list Rule) : M (list Job) :=
  result <- for_rules rules [] ;;
  ret (sorted path result).

(** *** [execute_rules] *)

(** The loop over [job.actions]; the value is [current_path] when the loop
    ends. *)
Fixpoint for_actions (acts : list Action) (file_attributes : Attrs)
  (simulate : bool) (current_path : Path) : M Path :=
  match acts with
  | [] => ret current_path
  | action :: acts' =>
      new_path <- call (EvRun action current_path file_attributes simulate)
                    (run action current_path file_attributes simulate) ;;
      for_actions acts' file_attributes simulate
        (match new_path with
         | Some p => p
         | None => current_path
         end)
  end.

(** The body of [for job in jobs]. *)
Definition execute_job (simulate : bool) (job : Job) : M Path :=
  _ <- emit (EvLogInfo (path job)) ;;
  f <- lift (first (job_filters job)) ;;
  file_attributes <- call (EvParse f (path job)) (parse f (path job)) ;;
  current_path <- ask (EvResolve (path job)) (fun w => resolve w (path job)) ;;
  for_actions (job_actions job) file_attributes simulate current_path.

Fixpoint for_jobs (simulate : bool) (jobs : list Job) : M unit :=
  match jobs with
  | [] => ret tt
  | job :: jobs' =>
      _ <- execute_job simulate job ;;
      for_jobs simulate jobs'
  end.

Definition execute_rules (rules : list Rule) (simulate : bool) : M unit :=
  jobs <- find_jobs rules ;;
  match jobs with
  | [] => emit (EvPrint "Nothing to do.")
  | _ :: _ =>
      _ <- emit (EvLogDebug jobs) ;;
      for_jobs simulate jobs
  end.

(** *** Reading a trace *)

Definition err_of {A} (r : result A) : option exn :=
  match r with Ok _ => None | Err e => Some e end.

(** The exception the call or query of an event raised, if any. *)
Definition raised (ev : Event) : option exn :=
  match ev with
  | EvGlob folder w => err_of (glob_folder folder w)
  | EvMatches f p w => err_of (snd (matches f p w))
  | EvParse f p w => err_of (snd (parse f p w))
  | EvResolve p w => err_of (resolve w p)
  | EvRun a p attrs simulate w => err_of (snd (run a p attrs simulate w))
  | EvPrint _ | EvLogInfo _ | EvLogDebug _ => None
  end.

(** The world an event starts in and the world it leaves. *)
Definition effect (ev : Event) : option (World * World) :=
  match ev with
  | EvGlob _ w | EvResolve _ w => Some (w, w)
  | EvMatches f p w => Some (w, fst (matches f p w))
  | EvParse f p w => Some (w, fst (parse f p w))
  | EvRun a p attrs simulate w => Some (w, fst (run a p attrs simulate w))
  | EvPrint _ | EvLogInfo _ | EvLogDebug _ => None
  end.

(** [threads w tr w']: starting in [w], every event of [tr] starts in the
    world its predecessor left, and the last one leaves [w']: the world
    changes inside the calls and nowhere else. *)
Fixpoint threads (w : World) (tr : list Event) (w' : World) : Prop :=
  match tr with
  | [] => w = w'
  | ev :: tr' =>
      match effect ev with
      | Some (w0, w1) => w0 = w /\ threads w1 tr' w'
      | None => threads w tr' w'
      end
  end.

(** The world after replaying only the action runs of a trace. *)
Fixpoint replay_runs (w : World) (tr : list Event) : World :=
  match tr with
  | [] => w
  | EvRun a p attrs simulate _ :: tr' =>
      replay_runs (fst (run a p attrs simulate w)) tr'
  | _ :: tr' => replay_runs w tr'
  end.

Definition quiet (tr : list Event) : Prop :=
  Forall (fun ev => raised ev = None) tr.

(** How a trace and the value of the computation fit: a value is returned
    and no event raised; or the last event raised and its exception is the
    value; or the engine's own [x[0]] raised [IndexError] after events that
    did not raise. *)
Inductive ending {A : Type} : list Event -> result A -> Prop :=
| ending_ok (tr : list Event) (a : A) :
    quiet tr -> ending tr (Ok a)
| ending_raised (tr : list Event) (ev : Event) (e : exn) :
    quiet tr -> raised ev = Some e -> ending (tr ++ [ev]) (Err e)
| ending_index (tr : list Event) :
    quiet tr -> ending tr (Err IndexError).

(** A call without its world and, for a run, without its arguments: which
    method of which object (or which query, or which output). *)
Inductive Call : Type :=
| CGlob (folder : string)
| CMatches (f : Filter) (p : Path)
| CParse (f : Filter) (p : Path)
| CResolve (p : Path)
| CRun (a : Action)
| CPrint (s : string)
| CLogInfo (p : Path)
| CLogDebug (jobs : list Job).

Definition call_of (ev : Event) : Call :=
  match ev with
  | EvGlob folder _ => CGlob folder
  | EvMatches f p _ => CMatches f p
  | EvParse f p _ => CParse f p
  | EvResolve p _ => CResolve p
  | EvRun a _ _ _ _ => CRun a
  | EvPrint s => CPrint s
  | EvLogInfo p => CLogInfo p
  | EvLogDebug jobs => CLogDebug jobs
  end.

Definition calls (tr : list Event) : list Call := map call_of tr.

Definition prefix {A} (l1 l2 : list A) : Prop := exists l3, l2 = l1 ++ l3.

(** The calls a job asks for when nothing raises. *)
Definition job_plan (job : Job) : list Call :=
  CLogInfo (path job) ::
  match job_filters job with
  | [] => []
  | f :: _ =>
      CParse f (path job) :: CResolve (path job) :: map CRun (job_actions job)
  end.

Definition jobs_plan (jobs : list Job) : list Call :=
  match jobs with
  | [] => [CPrint "Nothing to do."]
  | _ :: _ => CLogDebug jobs :: flat_map job_plan jobs
  end.

(** The calls of [execute_rules] in world [w] when nothing raises after
    discovery; the flag does not occur in it. *)
Definition plan (rules : list Rule) (w : World) : list Call :=
  calls (trace (find_jobs rules w))
  ++ match value (find_jobs rules w) with
     | Ok jobs => jobs_plan jobs
     | Err _ => []
     end.

Definition is_run (ev : Event) : bool :=
  match ev with EvRun _ _ _ _ _ => true | _ => false end.

Definition is_parse (ev : Event) : bool :=
  match ev with EvParse _ _ _ => true | _ => false end.

(** Every run of the trace was given [simulate]. *)
Definition run_flag_is (simulate : bool) (ev : Event) : Prop :=
  match ev with
  | EvRun _ _ _ s _ => s = simulate
  | _ => True
  end.

Definition runs_with (simulate : bool) (tr : list Event) : Prop :=
  Forall (run_flag_is simulate) tr.

(** The events of discovery: listing a folder, asking a filter whether a
    path matches. *)
Definition is_discovery (ev : Event) : Prop :=
  match ev with
  | EvGlob _ _ | EvMatches _ _ _ => True
  | _ => False
  end.

(** Every event a computation emits satisfies [P]. *)
Definition emits {A} (P : Event -> Prop) (m : M A) : Prop :=
  forall w, Forall P (trace (m w)).

(** An outcome follows a plan: its calls are the first calls of the plan,
    and all of it when a value is returned. *)
Definition follows {A} (o : Outcome A) (p : list Call) : Prop :=
  prefix (calls (trace o)) p
  /\ (forall a, value o = Ok a -> calls (trace o) = p).

(** The bundle the last parse of the trace returned, [cur] when the trace
    has no parse. *)
Fixpoint bundle_after (cur : option Attrs) (tr : list Event) : option Attrs :=
  match tr with
  | [] => cur
  | EvParse f p w :: tr' =>
      bundle_after (match snd (parse f p w) with
                    | Ok attrs => Some attrs
                    | Err _ => None
                    end) tr'
  | _ :: tr' => bundle_after cur tr'
  end.

(** Every run of the trace was given the bundle that the parse call last
    before it returned ([cur] before the first parse). *)
Fixpoint bundles_from_parse (cur : option Attrs) (tr : list Event) : Prop :=
  match tr with
  | [] => True
  | EvParse f p w :: tr' =>
      bundles_from_parse (match snd (parse f p w) with
                          | Ok attrs => Some attrs
                          | Err _ => None
                          end) tr'
  | EvRun _ _ attrs _ _ :: tr' =>
      cur = Some attrs /\ bundles_from_parse cur tr'
  | _ :: tr' => bundles_from_parse cur tr'
  end.

(** The current path after a run event: what the run returned, or the
    path it was given when it returned nothing. *)
Definition next_path (current_path : Path) (ev : Event) : Path :=
  match ev with
  | EvRun a p attrs simulate w =>
      match snd (run a p attrs simulate w) with
      | Ok (Some new_path) => new_path
      | _ => current_path
      end
  | _ => current_path
  end.

(** Every run of the trace was given the current path, which starts as
    [current_path] and is replaced by what each run returns. *)
Fixpoint chained (current_path : Path) (tr : list Event) : Prop :=
  match tr with
  | [] => True
  | ev :: tr' =>
      match ev with
      | EvRun _ p _ _ _ => p = current_path
      | _ => True
      end /\ chained (next_path current_path ev) tr'
  end.

Definition final_path (current_path : Path) (tr : list Event) : Path :=
  fold_left next_path tr current_path.

Definition run_actions (tr : list Event) : list Action :=
  flat_map (fun ev => match ev with EvRun a _ _ _ _ => [a] | _ => [] end) tr.

(** The runs of a trace, in order, each with the bundle it was given. *)
Definition run_bundles (tr : list Event) : list (Action * Attrs) :=
  flat_map (fun ev => match ev with
                      | EvRun a _ attrs _ _ => [(a, attrs)]
                      | _ => []
                      end) tr.

(** The runs of a trace, in order, each with the flag it was given. *)
Definition run_flags (tr : list Event) : list (Action * bool) :=
  flat_map (fun ev => match ev with
                      | EvRun a _ _ simulate _ => [(a, simulate)]
                      | _ => []
                      end) tr.

(** *** Discovery when the filters only look *)

(** A filter call that returns and leaves the world as it is. *)
Definition looks_only (w : World) (f : Filter) : Prop :=
  forall p, exists b, matches f p w = (w, Ok b).

Definition holds (w : World) (p : Path) (f : Filter) : bool :=
  match snd (matches f p w) with
  | Ok b => b
  | Err _ => false
  end.

(** What listing a folder yields, nothing when it fails. *)
Definition listed (w : World) (folder : string) : list Path :=
  match glob_folder folder w with
  | Ok batch => batch
  | Err _ => []
  end.

(** The candidate paths of a rule: what its folders list, in order. *)
Definition candidates (w : World) (rule : Rule) : list Path :=
  flat_map (listed w) (folders rule).

(** All the filters of the rule hold of the path. *)
Definition accepts (w : World) (rule : Rule) (p : Path) : bool :=
  forallb (holds w p) (filters rule).

Definition accepted (w : World) (rule : Rule) : list Path :=
  filter (accepts w rule) (candidates w rule).

Definition discovered (w : World) (rules : list Rule) : list Job :=
  flat_map (fun rule => map (job_of rule) (accepted w rule)) rules.

(** The rules can be scanned in [w]: every folder can be listed and every
    filter only looks. *)
Definition scannable (w : World) (rules : list Rule) : Prop :=
  forall rule, In rule rules ->
    (forall folder, In folder (folders rule) ->
       exists batch, glob_folder folder w = Ok batch)
    /\ (forall f, In f (filters rule) -> looks_only w f).

(** The same as far as discovery goes: every folder can be listed, and on
    the candidates of its rule every filter returns and leaves the world as
    it is; on other paths the filters may do anything. *)
Definition scannable_on_candidates (w : World) (rules : list Rule) : Prop :=
  forall rule, In rule rules ->
    (forall folder, In folder (folders rule) ->
       exists batch, glob_folder folder w = Ok batch)
    /\ (forall f p, In f (filters rule) -> In p (candidates w rule) ->
          exists b, matches f p w = (w, Ok b)).

(** The children of a folder that [all_pathes] yields. *)
Definition dotted_children (w : World) (folder : string) : list Path :=
  match expanduser w (PosixPath folder) with
  | Ok dir =>
      match is_dir w dir with
      | Ok true =>
          match listdir w dir with
          | Ok names =>
              map (fun name => dir ++ [name])
                (filter (fun name =>
                           if in_dec ascii_dec "."%char
                                (list_ascii_of_string name)
                           then true else false) names)
          | Err _ => []
          end
      | _ => []
      end
  | Err _ => []
  end.

(** A filter call that left the world as it was. *)
Definition filter_call_looks (ev : Event) : Prop :=
  match ev with
  | EvMatches f p w => fst (matches f p w) = w
  | EvParse f p w => fst (parse f p w) = w
  | _ => True
  end.

(** A parse event is the parse of the first filter of one of the jobs, on
    the path of that job. *)
Definition parse_of_first (jobs : list Job) (ev : Event) : Prop :=
  match ev with
  | EvParse f p _ =>
      exists job, In job jobs /\ first (job_filters job) = Ok f /\ p = path job
  | _ => True
  end.

(** A job carries the filters and the actions of one of the rules. *)
Definition from_rule (rules : list Rule) (job : Job) : Prop :=
  exists rule, In rule rules
               /\ job_filters job = filters rule
               /\ job_actions job = actions rule.

(** For every filter of the job there is, in the trace, a call of its
    [matches] on the path of the job that returned true. *)
Definition matched (tr : list Event) (job : Job) : Prop :=
  forall f, In f (job_filters job) ->
    exists w, In (EvMatches f (path job) w) tr
              /\ snd (matches f (path job) w) = Ok true.

(** A computation is [sound] when, from every world, its trace threads the
    world from start to end and fits its value. *)
Definition sound {A} (m : M A) : Prop :=
  forall w,
    threads w (trace (m w)) (world_after (m w))
    /\ ending (trace (m w)) (value (m w)).

End Engine.

Arguments Filter : clear implicits.
Arguments Action : clear implicits.
Arguments Rule : clear implicits.
Arguments Job : clear implicits.
Arguments Event : clear implicits.
Arguments Outcome : clear implicits.
Arguments M : clear implicits.
Arguments Generator : clear implicits.
Arguments Call : clear implicits.

End Engine.

Import Engine.

(** ** A small operating system to run the engine on *)

Module MemFS.

(** [LockedDirectory] is a directory without read and search permission:
    it may not be listed, and no path below it can be looked at. *)
Inductive Kind : Type := RegularFile | Directory | LockedDirectory.

(** The file tree as the list of its entries, each with its absolute path,
    and the [$HOME] of the only user.  There are no symbolic links and the
    working directory is the root. *)
Record World : Type := {
  entries : list (Path * Kind);
  home : option string
}.

Definition path_eqb (a b : Path) : bool :=
  match path_compare a b with Eq => true | _ => false end.

Definition kind_of (w : World) (p : Path) : option Kind :=
  match find (fun e => path_eqb (fst e) p) (entries w) with
  | Some e => Some (snd e)
  | None => None
  end.

Definition name_of (p : Path) : string := last p EmptyString.

Definition parent_of (p : Path) : Path := removelast p.

Definition is_child_of (dir : Path) (e : Path * Kind) : bool :=
  path_eqb (parent_of (fst e)) dir && negb (path_eqb (fst e) dir).

(** [starts_with dir p]: the parts of [dir] are the first parts of [p], and
    [p] has more. *)
Fixpoint starts_with (dir p : Path) : bool :=
  match dir, p with
  | [], _ :: _ => true
  | d :: dir', x :: p' => String.eqb d x && starts_with dir' p'
  | _, _ => false
  end.

(** [stat] fails with EACCES on a path below a locked directory. *)
Definition below_locked (w : World) (p : Path) : bool :=
  existsb (fun e => match snd e with
                    | LockedDirectory => starts_with (fst e) p
                    | _ => false
                    end) (entries w).

#[export] Instance os : OS World := {|
  gethomedir w username :=
    match username, home w with
    | EmptyString, Some h => Ok h
    | _, _ => Err RuntimeError
    end;
  is_dir w p :=
    if below_locked w p then Err PermissionError
    else Ok (match kind_of w p with
             | Some Directory | Some LockedDirectory => true
             | _ => false
             end);
  listdir w p :=
    match kind_of w p with
    | Some Directory => Ok (map (fun e => name_of (fst e)) (filter (is_child_of p) (entries w)))
    | Some LockedDirectory => Err PermissionError
    | _ => Err (OtherError "NotADirectoryError")
    end;
  resolve w p :=
    match p with
    | String "/" _ :: _ => Ok p
    | _ => Ok ("/"%string :: p)
    end
|}.

Definition Attrs : Type := list (string * string).

Definition ends_with (suffix s : string) : bool :=
  String.prefix (string_of_list_ascii (rev (list_ascii_of_string suffix)))
    (string_of_list_ascii (rev (list_ascii_of_string s))).

(** Sample filters. *)

Definition Extension (ext : string) : Filter World Attrs := {|
  matches p w := (w, Ok (ends_with (String "." ext) (name_of p)));
  parse p w := (w, Ok [("extension"%string, ext)])
|}.

Definition Never : Filter World Attrs := {|
  matches _ w := (w, Ok false);
  parse _ w := (w, Ok [("never"%string, EmptyString)])
|}.

Definition Unreadable : Filter World Attrs := {|
  matches _ w := (w, Err (OtherError "OSError"));
  parse _ w := (w, Err (OtherError "OSError"))
|}.

(** Sample actions. *)

Definition rename (w : World) (src dst : Path) : World :=
  {| entries := map (fun e => if path_eqb (fst e) src then (dst, snd e) else e) (entries w);
     home := home w |}.

Definition unlink (w : World) (p : Path) : World :=
  {| entries := filter (fun e => negb (path_eqb (fst e) p)) (entries w);
     home := home w |}.

Definition Move (dest : string) : Action World Attrs := {|
  run p _ simulate w :=
    let target := PosixPath dest ++ [name_of p] in
    if simulate then (w, Ok (Some target))
    else match kind_of w p with
         | Some _ => (rename w p target, Ok (Some target))
         | None => (w, Err (OtherError "FileNotFoundError"))
         end
|}.

Definition Trash : Action World Attrs := {|
  run p _ simulate w :=
    if simulate then (w, Ok None)
    else match kind_of w p with
         | Some _ => (unlink w p, Ok None)
         | None => (w, Err (OtherError "FileNotFoundError"))
         end
|}.

Definition Echo : Action World Attrs := {|
  run _ _ _ w := (w, Ok None)
|}.

(** A home directory with a download folder holding two files, a directory
    whose name has a dot, a file inside it, and a file without a dot; next
    to it the documents and a locked directory. *)
Definition world0 : World := {|
  entries := [
    (["/"], Directory);
    (["/"; "home"], Directory);
    (["/"; "home"; "u"], Directory);
    (["/"; "home"; "u"; "dl"], Directory);
    (["/"; "home"; "u"; "dl"; "a.txt"], RegularFile);
    (["/"; "home"; "u"; "dl"; "b.jpg"], RegularFile);
    (["/"; "home"; "u"; "dl"; "old.d"], Directory);
    (["/"; "home"; "u"; "dl"; "old.d"; "deep.txt"], RegularFile);
    (["/"; "home"; "u"; "dl"; "Makefile"], RegularFile);
    (["/"; "home"; "u"; "docs"], Directory);
    (["/"; "home"; "u"; "vault"], LockedDirectory)
  ]%string;
  home := Some "/home/u"%string
|}.

Definition downloads : Path := ["/"; "home"; "u"; "dl"]%string.

Definition a_txt : Path := downloads ++ ["a.txt"%string].

Definition b_jpg : Path := downloads ++ ["b.jpg"%string].

Definition old_d : Path := downloads ++ ["old.d"%string].

Definition docs_a_txt : Path := ["/"; "home"; "u"; "docs"; "a.txt"]%string.

Definition txt_attrs : Attrs := [("extension"%string, "txt"%string)].

(** Text files are moved to the documents, announced, and the moved file
    is deleted. *)
Definition text_rule : Rule World Attrs := {|
  folders := ["~/dl"%string];
  filters := [Extension "txt"];
  actions := [Move "/home/u/docs"; Echo; Trash]
|}.

Definition jpg_rule : Rule World Attrs := {|
  folders := ["/home/u/dl"%string];
  filters := [Extension "jpg"; Extension "jpg"];
  actions := [Echo]
|}.

(** A second rule for text files, on the same folder. *)
Definition echo_rule : Rule World Attrs := {|
  folders := ["/home/u/dl"%string];
  filters := [Extension "txt"; Extension "txt"];
  actions := [Echo]
|}.

(** A rule without filters. *)
Definition any_rule : Rule World Attrs := {|
  folders := ["~/dl"%string];
  filters := [];
  actions := [Echo]
|}.

(** A rule that deletes twice: the second deletion finds no file. *)
Definition twice_rule : Rule World Attrs := {|
  folders := ["~/dl"%string];
  filters := [Extension "txt"];
  actions := [Trash; Trash; Echo]
|}.

(** A rule whose second filter cannot read the file. *)
Definition broken_rule : Rule World Attrs := {|
  folders := ["~/dl"%string];
  filters := [Extension "txt"; Unreadable];
  actions := [Trash]
|}.

(** A rule without folders. *)
Definition idle_rule : Rule World Attrs := {|
  folders := [];
  filters := [Extension "txt"];
  actions := [Trash]
|}.

End MemFS.

(** ** More ways to read a trace *)

Module Observations.

Section Observations.
Context {World Attrs : Type} {os : OS World}.

Local Abbreviation Rule := (Engine.Rule World Attrs).
Local Abbreviation Job := (Engine.Job World Attrs).
Local Abbreviation Event := (Engine.Event World Attrs).

(** The paths of the [logger.info('File %s', job.path)] lines, in order. *)
Definition logged (tr : list Event) : list Path :=
  flat_map (fun ev => match ev with EvLogInfo p => [p] | _ => [] end) tr.

(** An event that left the world as it found it. *)
Definition still (ev : Event) : Prop :=
  forall w0 w1, effect ev = Some (w0, w1) -> w1 = w0.

(** A job with the filters and the actions of one of the rules, whose path
    the listing, in the trace, of a folder of that rule yielded. *)
Definition yielded (rules : list Rule) (tr : list Event) (job : Job) : Prop :=
  exists rule folder w,
    In rule rules /\ In folder (folders rule)
    /\ job_filters job = filters rule /\ job_actions job = actions rule
    /\ In (EvGlob folder w) tr /\ In (path job) (listed w folder).

(** A filter that was asked whether a path matches and returned true. *)
Definition said_yes (ev : Event) : Prop :=
  match ev with
  | EvMatches f p w => snd (matches f p w) = Ok true
  | _ => False
  end.

(** The filters of the rules never change the world, and their actions do
    not change it when they are run with [simulate=True]. *)
Definition honours_dry_run (rules : list Rule) : Prop :=
  forall rule, In rule rules ->
    (forall f p w, In f (filters rule) ->
       fst (matches f p w) = w /\ fst (parse f p w) = w)
    /\ (forall a p attrs w, In a (actions rule) ->
          fst (run a p attrs true w) = w).

(** A folder that [glob] passes over without a word: after [~] expansion
    [is_dir] returns false for it (it does not exist or is not a
    directory), or it is a directory whose listing raises
    [PermissionError]. *)
Definition passed_over (w : World) (folder : string) : Prop :=
  exists dir,
    expanduser w (PosixPath folder) = Ok dir
    /\ (is_dir w dir = Ok false
        \/ (is_dir w dir = Ok true
            /\ listdir w dir = Err PermissionError)).

End Observations.
End Observations.

Import Observations.

(** ** [list_actions_and_filters] *)

Module Listing.

(** What is printed: the text of each [print] call, in order.  A string is
    the sequence of its characters, [len] their number. *)
Definition Printed (A : Type) : Type := list string * result A.

Definition len (s : string) : Z := Z.of_nat (String.length s).

Fixpoint repeat_string (s : string) (n : nat) : string :=
  match n with
  | O => EmptyString
  | S n' => (s ++ repeat_string s n')%string
  end.

(** [s * n]: the empty string when [n] is zero or negative. *)
Definition str_mul (s : string) (n : Z) : string :=
  repeat_string s (Z.to_nat n).

Definition newline : string := String "010"%char EmptyString.

(** The local [heading]: a rule, the title and the subtitle with spaces
    between them, an empty line. *)
Definition heading (title subtitle char : string) (width : Z) : list string :=
  let space := str_mul " " (width - 2 - len title - len subtitle) in
  [str_mul char width;
   (title ++ " " ++ space ++ " " ++ subtitle)%string;
   EmptyString].

Section Listing.

(** [textwrap.indent(text, prefix)], left as it is in the library. *)
Variable indent : string -> string -> string.

(** The local [content]; [inspect.getdoc] gives [None] for a class without
    a docstring, on which [textwrap.indent] raises [AttributeError]. *)
Definition content (doc : option string) : Printed unit :=
  match doc with
  | None => ([], Err (OtherError "AttributeError"))
  | Some text => ([indent text "    "; newline], Ok tt)
  end.

(** The two [for name, cls in ...] loops; a class is its name and what
    [inspect.getdoc] gives for it, the list is what [inspect.getmembers]
    gives. *)
Fixpoint for_classes (kind : string) (classes : list (string * option string))
  : Printed unit :=
  match classes with
  | [] => ([], Ok tt)
  | (name, doc) :: classes' =>
      let h := heading name kind "-" 80 in
      match content doc with
      | (out, Err e) => (h ++ out, Err e)
      | (out, Ok _) =>
          let '(out', r) := for_classes kind classes' in
          (h ++ out ++ out', r)
      end
  end.

Definition list_actions_and_filters
  (filterclasses actionclasses : list (string * option string))
  : Printed unit :=
  let h := heading "Available filters:" EmptyString "#" 80 in
  match for_classes "(filter)" filterclasses with
  | (out, Err e) => (h ++ out, Err e)
  | (out, Ok _) =>
      let h' := heading "Available actions:" EmptyString "#" 80 in
      let '(out', r) := for_classes "(action)" actionclasses in
      (h ++ out ++ h' ++ out', r)
  end.

(** What is printed for one documented class. *)
Definition block (kind : string) (class : string * option string)
  : list string :=
  heading (fst class) kind "-" 80
  ++ match snd class with
     | Some text => [indent text "    "; newline]
     | None => []
     end.

Definition documented (class : string * option string) : Prop :=
  snd class <> None.

End Listing.
End Listing.

(** ** [cli] *)

Module Cli.

(** The dictionary [docopt] returns for the usage of the module: one flag
    per command. *)
Record Args : Type := {
  sim : bool;
  run_command : bool;
  config : bool;
  list_command : bool
}.

Section Cli.
Context {World Attrs : Type} {os : OS World}.

(** [config_dir], from [appdirs]. *)
Variable config_dir : Path.

(** Modelled from the spec: [organize.config] is not among the sources.
    [load_rules] stands for [open(config_path)], [f.read()], [Config(...)]
    and [config.rules]: it reads the world and gives the rules or raises. *)
Variable load_rules : World -> result (list (Rule World Attrs)).

(** What [open_folder(config_dir)] and [list_actions_and_filters()] do:
    they print or open a browser and may raise, and leave the world alone.
    The directories that the module creates when it is imported are made
    before [cli] is called and are no part of it. *)
Variable opened : result unit.
Variable listing : Listing.Printed unit.

Inductive Step : Type :=
| StPrintPath (p : Path)
| StOpenFolder (p : Path)
| StPrint (s : string)
| StLoadConfig (w : World)
| StEngine (ev : Event World Attrs).

Record Run : Type := {
  steps : list Step;
  world_left : World;
  exit_value : result unit
}.

Definition cli (args : Args) (w : World) : Run :=
  if config args then
    {| steps := [StPrintPath config_dir; StOpenFolder config_dir];
       world_left := w;
       exit_value := opened |}
  else if list_command args then
    {| steps := map StPrint (fst listing);
       world_left := w;
       exit_value := snd listing |}
  else
    match load_rules w with
    | Err e =>
        {| steps := [StLoadConfig w]; world_left := w; exit_value := Err e |}
    | Ok rules =>
        let o := execute_rules rules (sim args) w in
        {| steps := StLoadConfig w :: map StEngine (trace o);
           world_left := world_after o;
           exit_value := value o |}
    end.

Definition is_engine (st : Step) : bool :=
  match st with StEngine _ => true | _ => false end.

Definition is_load (st : Step) : bool :=
  match st with StLoadConfig _ => true | _ => false end.

End Cli.
End Cli.

(** ** More samples *)

Module Samples.

Import MemFS.

(** A rule whose folders cannot be listed: one does not exist, one is a
    file, one is a directory that may not be listed. *)
Definition lost_rule : Rule World Attrs := {|
  folders := ["~/nowhere"%string; "/home/u/dl/a.txt"%string;
              "~/vault"%string];
  filters := [Unreadable];
  actions := [Trash]
|}.

(** A configuration with one rule, and the command lines [organize sim]
    and [organize config]. *)
Definition one_rule_config (w : World) : result (list (Rule World Attrs)) :=
  Ok [text_rule].

Definition organize_sim : Cli.Args :=
  {| Cli.sim := true; Cli.run_command := false; Cli.config := false;
     Cli.list_command := false |}.

Definition organize_config : Cli.Args :=
  {| Cli.sim := false; Cli.run_command := false; Cli.config := true;
     Cli.list_command := false |}.

(** An indentation that only prefixes the text, for texts of one line. *)
Definition indent_one_line (text prefix : string) : string :=
  (prefix ++ text)%string.

End Samples.

(** * Properties *)

(** ** Paths and their order *)

Module PathlibFacts.

Lemma string_lt_irrefl (x : string) : ~ String_as_OT.lt x x.
Proof. exact (@StrictOrder_Irreflexive _ _ String_as_OT.lt_strorder x). Qed.

Lemma string_lt_trans (x y z : string) :
  String_as_OT.lt x y -> String_as_OT.lt y z -> String_as_OT.lt x z.
Proof. exact (@StrictOrder_Transitive _ _ String_as_OT.lt_strorder x y z). Qed.

Lemma string_compare_refl (x : string) : String_as_OT.compare x x = Eq.
Proof.
  destruct (String_as_OT.compare_spec x x) as [_ | H | H]; trivial;
    exfalso; now apply (@string_lt_irrefl x).
Qed.

Lemma string_compare_eq (x y : string) : String_as_OT.compare x y = Eq -> x = y.
Proof.
  destruct (String_as_OT.compare_spec x y) as [E | H | H]; try discriminate.
  intros _. exact E.
Qed.

Lemma string_compare_antisym (x y : string) :
  String_as_OT.compare y x = CompOpp (String_as_OT.compare x y).
Proof.
  destruct (String_as_OT.compare_spec x y) as [E | H | H];
    destruct (String_as_OT.compare_spec y x) as [E' | H' | H'];
    try reflexivity; exfalso; unfold String_as_OT.eq in *; subst;
    try (now apply (@string_lt_irrefl x));
    try (now apply (@string_lt_irrefl y));
    apply (@string_lt_irrefl x); apply (@string_lt_trans x y x); assumption.
Qed.

Lemma string_compare_lt_trans (x y z : string) :
  String_as_OT.compare x y = Lt -> String_as_OT.compare y z = Lt ->
  String_as_OT.compare x z = Lt.
Proof. apply string_lt_trans. Qed.

Lemma path_compare_refl (a : Path) : path_compare a a = Eq.
Proof.
  induction a as [| x a IH]; simpl; trivial.
  now rewrite string_compare_refl.
Qed.

Lemma path_compare_eq (a b : Path) : path_compare a b = Eq -> a = b.
Proof.
  revert b; induction a as [| x a IH]; intros [| y b]; simpl; try discriminate; trivial.
  destruct (String_as_OT.compare x y) eqn:E; try discriminate.
  intros H. apply string_compare_eq in E. apply IH in H. congruence.
Qed.

Lemma path_compare_antisym (a b : Path) :
  path_compare b a = CompOpp (path_compare a b).
Proof.
  revert b; induction a as [| x a IH]; intros [| y b]; simpl; trivial.
  rewrite (string_compare_antisym x y).
  destruct (String_as_OT.compare x y); simpl; trivial.
Qed.

Lemma path_lt_trans (a b c : Path) : path_lt a b -> path_lt b c -> path_lt a c.
Proof.
  unfold path_lt. revert b c.
  induction a as [| x a IH]; intros [| y b] [| z c]; simpl; try discriminate; trivial.
  destruct (String_as_OT.compare x y) eqn:Exy; try discriminate;
    destruct (String_as_OT.compare y z) eqn:Eyz; try discriminate.
  - apply string_compare_eq in Exy, Eyz; subst.
    rewrite string_compare_refl. apply IH.
  - apply string_compare_eq in Exy; subst. now rewrite Eyz.
  - apply string_compare_eq in Eyz; subst. now rewrite Exy.
  - now rewrite (string_compare_lt_trans _ _ _ Exy Eyz).
Qed.

Lemma path_le_refl (a : Path) : path_le a a.
Proof. unfold path_le. now rewrite path_compare_refl. Qed.

Lemma path_le_cases (a b : Path) : path_le a b <-> path_lt a b \/ a = b.
Proof.
  unfold path_le, path_lt. split.
  - destruct (path_compare a b) eqn:E; intros H.
    + right. now apply path_compare_eq.
    + now left.
    + congruence.
  - intros [H | ->].
    + congruence.
    + now rewrite path_compare_refl.
Qed.

Lemma path_le_trans (a b c : Path) : path_le a b -> path_le b c -> path_le a c.
Proof.
  rewrite !path_le_cases. intros [H1 | ->] [H2 | ->]; auto.
  left. eapply path_lt_trans; eauto.
Qed.

Lemma path_ltb_false_le (a b : Path) : path_ltb a b = false -> path_le b a.
Proof.
  unfold path_ltb, path_le. rewrite (path_compare_antisym a b).
  destruct (path_compare a b); simpl; congruence.
Qed.

Lemma path_ltb_true_le (a b : Path) : path_ltb a b = true -> path_le a b.
Proof.
  unfold path_ltb, path_le. destruct (path_compare a b); congruence.
Qed.

Lemma path_ltb_irrefl (a : Path) : path_ltb a a = false.
Proof. unfold path_ltb. now rewrite path_compare_refl. Qed.

(** The pattern of [all_pathes] selects the names that contain a dot. *)
Lemma fnmatch_star_any (name : list ascii) : fnmatch ["*"%char] name = true.
Proof.
  induction name as [| c name IH]; simpl in *; trivial.
Qed.

Lemma fnmatch_star_dot_star (name : list ascii) :
  fnmatch ["*"; "."; "*"]%char name = true <-> In "."%char name.
Proof.
  induction name as [| c name IH].
  - simpl. split; [discriminate | tauto].
  - change (fnmatch ["*"; "."; "*"]%char (c :: name))
      with ((Ascii.eqb "." c && fnmatch ["*"%char] name)
            || fnmatch ["*"; "."; "*"]%char name).
    rewrite fnmatch_star_any, andb_true_r, orb_true_iff, IH, Ascii.eqb_eq.
    simpl. split; intros [H | H]; auto.
Qed.

Lemma name_matches_star_dot_star (name : string) :
  name_matches star_dot_star name = true <-> In "."%char (list_ascii_of_string name).
Proof. apply fnmatch_star_dot_star. Qed.

End PathlibFacts.

Import PathlibFacts.

(** ** [sorted] *)

Module BuiltinsFacts.

Section SortedFacts.
Context {A : Type} (key : A -> Path).

Lemma insort_Permutation (x : A) (l : list A) : Permutation (insort key x l) (x :: l).
Proof.
  induction l as [| y l IH]; simpl; auto.
  destruct (path_ltb (key y) (key x)); auto.
  eapply perm_trans; [apply perm_skip, IH | apply perm_swap].
Qed.

Lemma sorted_Permutation (l : list A) : Permutation (sorted key l) l.
Proof.
  induction l as [| x l IH]; simpl; auto.
  eapply perm_trans; [apply insort_Permutation | auto].
Qed.

Lemma insort_StronglySorted (x : A) (l : list A) :
  StronglySorted (key_le key) l -> StronglySorted (key_le key) (insort key x l).
Proof.
  induction 1 as [| y l Hs IH Hy]; simpl.
  - repeat constructor.
  - destruct (path_ltb (key y) (key x)) eqn:E.
    + constructor; trivial.
      apply (@Permutation_Forall _ _ (x :: l)).
      * symmetry. apply insort_Permutation.
      * constructor; trivial. now apply path_ltb_true_le.
    + apply path_ltb_false_le in E.
      constructor; [now constructor |].
      constructor; trivial.
      eapply Forall_impl; [| exact Hy].
      intros z Hz. eapply path_le_trans; eauto.
Qed.

Lemma sorted_StronglySorted (l : list A) : StronglySorted (key_le key) (sorted key l).
Proof.
  induction l as [| x l IH]; simpl; [constructor |].
  now apply insort_StronglySorted.
Qed.

Lemma has_key_eq (k : Path) (x : A) : has_key key k x = true <-> key x = k.
Proof.
  unfold has_key. split.
  - destruct (path_compare (key x) k) eqn:E; try discriminate.
    intros _. now apply path_compare_eq.
  - intros <-. now rewrite path_compare_refl.
Qed.

(** Stability: the elements with a given key come out in the order they
    went in. *)
Lemma insort_stable (k : Path) (x : A) (l : list A) :
  filter (has_key key k) (insort key x l) = filter (has_key key k) (x :: l).
Proof.
  induction l as [| y l IH]; trivial.
  simpl insort. destruct (path_ltb (key y) (key x)) eqn:E; trivial.
  simpl in *. rewrite IH.
  destruct (has_key key k x) eqn:Hx, (has_key key k y) eqn:Hy; trivial.
  apply has_key_eq in Hx, Hy. rewrite Hx, Hy, path_ltb_irrefl in E. discriminate.
Qed.

Lemma sorted_stable (k : Path) (l : list A) :
  filter (has_key key k) (sorted key l) = filter (has_key key k) l.
Proof.
  induction l as [| x l IH]; trivial.
  simpl sorted. rewrite insort_stable. simpl. now rewrite IH.
Qed.

End SortedFacts.

Lemma first_spec {A} (x : list A) :
  match x with
  | [] => first x = Err IndexError
  | a :: _ => first x = Ok a
  end.
Proof. destruct x; reflexivity. Qed.

End BuiltinsFacts.

Import BuiltinsFacts.

(** ** The engine *)

Module EngineFacts.

Section Facts.
Context {World Attrs : Type} {os : OS World}.

Local Abbreviation Filter := (Engine.Filter World Attrs).
Local Abbreviation Action := (Engine.Action World Attrs).
Local Abbreviation Rule := (Engine.Rule World Attrs).
Local Abbreviation Job := (Engine.Job World Attrs).
Local Abbreviation Event := (Engine.Event World Attrs).
Local Abbreviation M := (Engine.M World Attrs).
Local Notation "x <- m ;; k" := (bind m (fun x => k))
  (at level 61, m at next level, right associativity).

(** *** The monad *)

Lemma bind_ok {A B} (m : M A) (k : A -> M B) (w : World) (a : A) :
  value (m w) = Ok a ->
  world_after (bind m k w) = world_after (k a (world_after (m w)))
  /\ trace (bind m k w) = trace (m w) ++ trace (k a (world_after (m w)))
  /\ value (bind m k w) = value (k a (world_after (m w))).
Proof. unfold bind. intros ->. auto. Qed.

Lemma bind_err {A B} (m : M A) (k : A -> M B) (w : World) (e : exn) :
  value (m w) = Err e ->
  world_after (bind m k w) = world_after (m w)
  /\ trace (bind m k w) = trace (m w)
  /\ value (bind m k w) = Err e.
Proof. unfold bind. intros ->. auto. Qed.

Lemma bind_value_ok {A B} (m : M A) (k : A -> M B) (w : World) (b : B) :
  value (bind m k w) = Ok b ->
  exists a, value (m w) = Ok a /\ value (k a (world_after (m w))) = Ok b.
Proof.
  unfold bind. destruct (value (m w)) as [a | e]; simpl; [eauto | discriminate].
Qed.

Lemma trace_bind_prefix {A B} (m : M A) (k : A -> M B) (w : World) :
  prefix (trace (m w)) (trace (bind m k w)).
Proof.
  unfold bind, prefix. destruct (value (m w)); simpl; eauto.
  exists []. now rewrite app_nil_r.
Qed.

(** A property of every event that a computation can emit holds of its
    trace. *)
Lemma Forall_trace_bind {A B} (P : Event -> Prop) (m : M A) (k : A -> M B)
  (w : World) :
  Forall P (trace (m w)) ->
  (forall a w', Forall P (trace (k a w'))) ->
  Forall P (trace (bind m k w)).
Proof.
  intros Hm Hk. unfold bind. destruct (value (m w)); simpl; trivial.
  apply Forall_app. auto.
Qed.

(** *** Threading of the world *)

Lemma threads_app (w w1 w2 : World) (tr1 tr2 : list Event) :
  threads w tr1 w1 -> threads w1 tr2 w2 -> threads w (tr1 ++ tr2) w2.
Proof.
  revert w. induction tr1 as [| ev tr1 IH]; simpl; intros w H1 H2.
  - now subst.
  - destruct (effect ev) as [[w0 w0'] |]; [destruct H1; split |]; eauto.
Qed.

Lemma threads_app_inv (w w2 : World) (tr1 tr2 : list Event) :
  threads w (tr1 ++ tr2) w2 ->
  exists w1, threads w tr1 w1 /\ threads w1 tr2 w2.
Proof.
  revert w. induction tr1 as [| ev tr1 IH]; simpl; intros w H.
  - eauto.
  - destruct (effect ev) as [[w0 w0'] |].
    + destruct H as [E H]. destruct (IH _ H) as (w1 & H1 & H2). eauto.
    + eauto.
Qed.

Lemma threads_fun (w w1 w2 : World) (tr : list Event) :
  threads w tr w1 -> threads w tr w2 -> w1 = w2.
Proof.
  revert w. induction tr as [| ev tr IH]; simpl; intros w H1 H2.
  - congruence.
  - destruct (effect ev) as [[w0 w0'] |]; [destruct H1, H2 |]; eauto.
Qed.

(** *** Traces and values *)

Lemma quiet_app (tr1 tr2 : list Event) :
  quiet tr1 -> quiet tr2 -> quiet (tr1 ++ tr2).
Proof. unfold quiet. intros. apply Forall_app. auto. Qed.

Lemma ending_app {A} (tr1 tr2 : list Event) (v : result A) :
  quiet tr1 -> ending tr2 v -> ending (tr1 ++ tr2) v.
Proof.
  intros Hq He. destruct He as [tr a H | tr ev e H Hev | tr H].
  - constructor. now apply quiet_app.
  - rewrite app_assoc. constructor; trivial. now apply quiet_app.
  - constructor. now apply quiet_app.
Qed.

Lemma ending_err_cast {A B} (tr : list Event) (e : exn) :
  ending (A := A) tr (Err e) -> ending (A := B) tr (Err e).
Proof.
  intros H. inversion H; subst; now constructor.
Qed.

Lemma ending_ok_quiet {A} (tr : list Event) (a : A) :
  ending tr (Ok a) -> quiet tr.
Proof. intros H. now inversion H. Qed.

Lemma app_last_inv {A} (l l1 l2 : list A) (x y : A) :
  l ++ [x] = l1 ++ y :: l2 -> (l2 = [] /\ l = l1 /\ x = y) \/ In y l.
Proof.
  revert l1. induction l as [| a l IH]; intros [| z l1]; simpl; intros E.
  - injection E as -> <-. auto.
  - injection E as _ E. now apply app_cons_not_nil in E.
  - injection E as -> _. auto.
  - injection E as -> E. destruct (IH _ E) as [(-> & -> & ->) | H]; auto.
Qed.

(** An event that raised is the last of the trace and its exception is
    the value. *)
Lemma ending_raised_last {A} (tr1 tr2 : list Event) (ev : Event) (e : exn)
  (v : result A) :
  ending (tr1 ++ ev :: tr2) v -> raised ev = Some e -> tr2 = [] /\ v = Err e.
Proof.
  intros H Hev.
  assert (Hnq : forall tr, quiet tr -> ~ In ev tr).
  { intros tr Hq Hin. unfold quiet in Hq. rewrite Forall_forall in Hq.
    specialize (Hq _ Hin). congruence. }
  inversion H as [tr a Hq | tr ev' e' Hq Hev' E | tr Hq]; subst.
  - exfalso. apply (Hnq _ Hq), in_elt.
  - apply app_last_inv in E. destruct E as [(-> & -> & ->) | Hin].
    + split; congruence.
    + exfalso. exact (Hnq _ Hq Hin).
  - exfalso. apply (Hnq _ Hq), in_elt.
Qed.

(** *** Soundness of the engine's computations *)

Lemma sound_ret {A} (a : A) : sound (World := World) (Attrs := Attrs) (ret a).
Proof. intros w. simpl. split; [trivial | repeat constructor]. Qed.

Lemma sound_bind {A B} (m : M A) (k : A -> M B) :
  sound m -> (forall a, sound (k a)) -> sound (bind m k).
Proof.
  intros Hm Hk w. destruct (Hm w) as [Ht He].
  destruct (value (m w)) as [a | e] eqn:E.
  - destruct (bind_ok m k w E) as (-> & -> & ->).
    destruct (Hk a (world_after (m w))) as [Ht' He'].
    split; [eapply threads_app; eauto |].
    apply ending_app; trivial. eapply ending_ok_quiet; eauto.
  - destruct (bind_err m k w E) as (-> & -> & ->).
    split; trivial. eapply ending_err_cast; eauto.
Qed.

Lemma sound_first {A} (x : list A) :
  sound (World := World) (Attrs := Attrs) (lift (first x)).
Proof.
  intros w. destruct x; simpl; split; trivial; repeat constructor.
Qed.

Lemma sound_emit (ev : Event) :
  effect ev = None -> raised ev = None -> sound (emit ev).
Proof.
  intros He Hr w. simpl. rewrite He. split; trivial.
  constructor. now constructor.
Qed.

Lemma sound_call {A} (ev : World -> Event) (method : World -> World * result A) :
  (forall w, effect (ev w) = Some (w, fst (method w))) ->
  (forall w, raised (ev w) = err_of (snd (method w))) ->
  sound (call ev method).
Proof.
  intros He Hr w. simpl. rewrite He. split; [auto |].
  specialize (Hr w). destruct (snd (method w)) as [a | e]; simpl in Hr.
  - constructor. now constructor.
  - apply (ending_raised (tr := [])); [constructor | trivial].
Qed.

Lemma sound_ask {A} (ev : World -> Event) (query : World -> result A) :
  (forall w, effect (ev w) = Some (w, w)) ->
  (forall w, raised (ev w) = err_of (query w)) ->
  sound (ask ev query).
Proof.
  intros He Hr w. simpl. rewrite He. split; [auto |].
  specialize (Hr w). destruct (query w) as [a | e]; simpl in Hr.
  - constructor. now constructor.
  - apply (ending_raised (tr := [])); [constructor | trivial].
Qed.

Ltac sound_steps :=
  repeat first
    [ apply sound_ret
    | apply sound_first
    | apply sound_emit; reflexivity
    | apply sound_call; intros; reflexivity
    | apply sound_ask; intros; reflexivity
    | match goal with
      | |- sound (bind _ _) => apply sound_bind; [| intros ?]
      end ].

Lemma sound_all_match (fs : list Filter) (p : Path) : sound (all_match fs p).
Proof.
  induction fs as [| f fs IH]; simpl; sound_steps.
  destruct a; [apply IH | apply sound_ret].
Qed.

Lemma sound_for_paths (rule : Rule) (batch : list Path) (result : list Job) :
  sound (for_paths rule batch result).
Proof.
  revert result. induction batch as [| p batch IH]; intros result; simpl;
    sound_steps; [apply sound_all_match | apply IH].
Qed.

Lemma sound_for_batches (rule : Rule) (gen : Generator World Attrs Path)
  (result : list Job) :
  Forall sound gen -> sound (for_batches rule gen result).
Proof.
  intros Hgen. revert result.
  induction Hgen as [| step gen Hs Hgen IH]; intros result; simpl; sound_steps;
    [exact Hs | apply sound_for_paths | apply IH].
Qed.

Lemma sound_all_pathes (rule : Rule) : Forall sound (all_pathes rule).
Proof.
  unfold all_pathes. apply Forall_map, Forall_forall. intros folder _.
  sound_steps.
Qed.

Lemma sound_exhaust {A} (gen : Generator World Attrs A) :
  Forall sound gen -> sound (exhaust gen).
Proof.
  induction 1 as [| step gen Hs Hgen IH]; simpl; sound_steps; trivial.
Qed.

Lemma sound_for_rules (rules : list Rule) (result : list Job) :
  sound (for_rules rules result).
Proof.
  revert result. induction rules as [| rule rules IH]; intros result; simpl;
    sound_steps; [apply sound_for_batches, sound_all_pathes | apply IH].
Qed.

Lemma sound_find_jobs (rules : list Rule) : sound (find_jobs rules).
Proof. unfold find_jobs. sound_steps. apply sound_for_rules. Qed.

Lemma sound_for_actions (acts : list Action) (attrs : Attrs) (simulate : bool)
  (current_path : Path) :
  sound (for_actions acts attrs simulate current_path).
Proof.
  revert current_path. induction acts as [| a acts IH]; intros cp; simpl;
    sound_steps. apply IH.
Qed.

Lemma sound_execute_job (simulate : bool) (job : Job) :
  sound (execute_job simulate job).
Proof. unfold execute_job. sound_steps. apply sound_for_actions. Qed.

Lemma sound_for_jobs (simulate : bool) (jobs : list Job) :
  sound (for_jobs simulate jobs).
Proof.
  induction jobs as [| job jobs IH]; simpl; sound_steps;
    [apply sound_execute_job | apply IH].
Qed.

Lemma sound_execute_rules (rules : list Rule) (simulate : bool) :
  sound (execute_rules rules simulate).
Proof.
  unfold execute_rules. sound_steps; [apply sound_find_jobs |].
  destruct a; sound_steps. apply sound_for_jobs.
Qed.

(** *** What a computation emits *)

Lemma emits_ret {A} (P : Event -> Prop) (a : A) : emits P (ret a).
Proof. intros w. constructor. Qed.

Lemma emits_bind {A B} (P : Event -> Prop) (m : M A) (k : A -> M B) :
  emits P m -> (forall a, emits P (k a)) -> emits P (bind m k).
Proof.
  intros Hm Hk w. apply Forall_trace_bind; [apply Hm | intros; apply Hk].
Qed.

Lemma emits_lift {A} (P : Event -> Prop) (r : result A) : emits P (lift r).
Proof. intros w. destruct r; constructor. Qed.

Lemma emits_emit (P : Event -> Prop) (ev : Event) : P ev -> emits P (emit ev).
Proof. intros H w. simpl. auto. Qed.

Lemma emits_call {A} (P : Event -> Prop) (ev : World -> Event)
  (method : World -> World * result A) :
  (forall w, P (ev w)) -> emits P (call ev method).
Proof. intros H w. simpl. auto. Qed.

Lemma emits_ask {A} (P : Event -> Prop) (ev : World -> Event)
  (query : World -> result A) :
  (forall w, P (ev w)) -> emits P (ask ev query).
Proof. intros H w. simpl. auto. Qed.

Ltac emits_steps :=
  repeat first
    [ apply emits_ret
    | apply emits_lift
    | apply emits_emit; simpl; trivial
    | apply emits_call; intros; simpl; trivial
    | apply emits_ask; intros; simpl; trivial
    | match goal with
      | |- emits _ (bind _ _) => apply emits_bind; [| intros ?]
      end ].

Lemma emits_all_match (P : Event -> Prop) (fs : list Filter) (p : Path) :
  (forall f w, P (EvMatches f p w)) -> emits P (all_match fs p).
Proof.
  intros H. induction fs as [| f fs IH]; simpl; emits_steps.
  destruct a; [apply IH | apply emits_ret].
Qed.

Lemma emits_for_paths (P : Event -> Prop) (rule : Rule) (batch : list Path)
  (result : list Job) :
  (forall f p w, P (EvMatches f p w)) -> emits P (for_paths rule batch result).
Proof.
  intros H. revert result.
  induction batch as [| p batch IH]; intros result; simpl; emits_steps;
    [apply emits_all_match; auto | apply IH].
Qed.

Lemma emits_for_batches (P : Event -> Prop) (rule : Rule)
  (gen : Generator World Attrs Path) (result : list Job) :
  (forall f p w, P (EvMatches f p w)) -> Forall (emits P) gen ->
  emits P (for_batches rule gen result).
Proof.
  intros H Hgen. revert result.
  induction Hgen as [| step gen Hs Hgen IH]; intros result; simpl; emits_steps;
    [exact Hs | apply emits_for_paths; auto | apply IH].
Qed.

Lemma emits_all_pathes (P : Event -> Prop) (rule : Rule) :
  (forall folder w, P (EvGlob folder w)) -> Forall (emits P) (all_pathes rule).
Proof.
  intros H. unfold all_pathes. apply Forall_map, Forall_forall.
  intros folder _. emits_steps.
Qed.

Lemma emits_for_rules (P : Event -> Prop) (rules : list Rule)
  (result : list Job) :
  (forall f p w, P (EvMatches f p w)) -> (forall folder w, P (EvGlob folder w)) ->
  emits P (for_rules rules result).
Proof.
  intros Hm Hg. revert result.
  induction rules as [| rule rules IH]; intros result; simpl; emits_steps;
    [apply emits_for_batches; auto using emits_all_pathes | apply IH].
Qed.

Lemma emits_find_jobs (P : Event -> Prop) (rules : list Rule) :
  (forall f p w, P (EvMatches f p w)) -> (forall folder w, P (EvGlob folder w)) ->
  emits P (find_jobs rules).
Proof.
  intros Hm Hg. unfold find_jobs. emits_steps. now apply emits_for_rules.
Qed.

(** Discovery lists folders and asks filters whether paths match; it
    parses nothing and runs nothing. *)
Lemma find_jobs_discovery (rules : list Rule) (w : World) :
  Forall is_discovery (trace (find_jobs rules w)).
Proof. apply emits_find_jobs; simpl; trivial. Qed.

Lemma emits_for_actions (P : Event -> Prop) (acts : list Action)
  (attrs : Attrs) (simulate : bool) (current_path : Path) :
  (forall a p w, P (EvRun a p attrs simulate w)) ->
  emits P (for_actions acts attrs simulate current_path).
Proof.
  intros H. revert current_path.
  induction acts as [| a acts IH]; intros cp; simpl; emits_steps. apply IH.
Qed.

Lemma emits_execute_job (P : Event -> Prop) (simulate : bool) (job : Job) :
  (forall p, P (EvLogInfo p)) -> (forall f p w, P (EvParse f p w)) ->
  (forall p w, P (EvResolve p w)) ->
  (forall a p attrs w, P (EvRun a p attrs simulate w)) ->
  emits P (execute_job simulate job).
Proof.
  intros. unfold execute_job. emits_steps. apply emits_for_actions; auto.
Qed.

Lemma emits_for_jobs (P : Event -> Prop) (simulate : bool) (jobs : list Job) :
  (forall p, P (EvLogInfo p)) -> (forall f p w, P (EvParse f p w)) ->
  (forall p w, P (EvResolve p w)) ->
  (forall a p attrs w, P (EvRun a p attrs simulate w)) ->
  emits P (for_jobs simulate jobs).
Proof.
  intros. induction jobs as [| job jobs IH]; simpl; emits_steps;
    [apply emits_execute_job; auto | apply IH].
Qed.

(** The flag given to [execute_rules] is the flag of every run. *)
Lemma execute_rules_runs_with (rules : list Rule) (simulate : bool) (w : World) :
  runs_with simulate (trace (execute_rules rules simulate w)).
Proof.
  revert w. change (emits (run_flag_is simulate) (execute_rules rules simulate)).
  unfold execute_rules. emits_steps.
  - apply emits_find_jobs; simpl; trivial.
  - destruct a; emits_steps. apply emits_for_jobs; simpl; trivial.
Qed.

(** *** Plans *)

Lemma prefix_refl {A} (l : list A) : prefix l l.
Proof. exists []. now rewrite app_nil_r. Qed.

Lemma prefix_app_r {A} (l l' : list A) : prefix l (l ++ l').
Proof. now exists l'. Qed.

Lemma prefix_app {A} (l l1 l2 : list A) : prefix l1 l2 -> prefix (l ++ l1) (l ++ l2).
Proof. intros [l3 ->]. exists l3. now rewrite app_assoc. Qed.

Lemma prefix_trans {A} (l1 l2 l3 : list A) :
  prefix l1 l2 -> prefix l2 l3 -> prefix l1 l3.
Proof. intros [a ->] [b ->]. exists (a ++ b). now rewrite app_assoc. Qed.

Lemma prefix_nil {A} (l : list A) : prefix [] l.
Proof. now exists l. Qed.

(** Two prefixes of one list: one is a prefix of the other. *)
Lemma prefix_comparable {A} (l1 l2 l : list A) :
  prefix l1 l -> prefix l2 l -> prefix l1 l2 \/ prefix l2 l1.
Proof.
  revert l2 l. induction l1 as [| x l1 IH]; intros l2 l H1 H2.
  - left. apply prefix_nil.
  - destruct l2 as [| y l2]; [right; apply prefix_nil |].
    destruct H1 as [r1 E1], H2 as [r2 E2]. subst l. simpl in E2.
    injection E2 as -> E2.
    destruct (IH l2 (l1 ++ r1)) as [[r ->] | [r ->]].
    + apply prefix_app_r.
    + now exists r2.
    + left. exists r. reflexivity.
    + right. exists r. reflexivity.
Qed.

Lemma follows_bind {A B} (m : M A) (k : A -> M B) (w : World)
  (pm pk : list (Call World Attrs)) :
  follows (m w) pm ->
  (forall a, value (m w) = Ok a -> follows (k a (world_after (m w))) pk) ->
  follows (bind m k w) (pm ++ pk).
Proof.
  intros [Hp He] Hk. destruct (value (m w)) as [a | e] eqn:E.
  - destruct (bind_ok m k w E) as (_ & Ht & Hv). unfold follows.
    rewrite Ht, Hv. unfold calls in *. rewrite map_app, (He a eq_refl).
    destruct (Hk a eq_refl) as [Hp' He']. split.
    + now apply prefix_app.
    + intros b Hb. f_equal. exact (He' b Hb).
  - destruct (bind_err m k w E) as (_ & Ht & Hv). unfold follows.
    rewrite Ht, Hv. split; [| discriminate].
    eapply prefix_trans; [exact Hp | apply prefix_app_r].
Qed.

Lemma follows_one {A} (o : Outcome World Attrs A) (ev : Event)
  (c : Call World Attrs) :
  trace o = [ev] -> call_of ev = c -> follows o [c].
Proof.
  intros E <-. unfold follows, calls. rewrite E. simpl.
  split; [apply prefix_refl | trivial].
Qed.

Lemma follows_for_actions (acts : list Action) (attrs : Attrs) (simulate : bool)
  (current_path : Path) (w : World) :
  follows (for_actions acts attrs simulate current_path w) (map CRun acts).
Proof.
  revert current_path w. induction acts as [| a acts IH]; intros cp w.
  - split; [apply prefix_refl | trivial].
  - simpl for_actions. change (map CRun (a :: acts))
      with ([CRun a] ++ map (@CRun World Attrs) acts).
    apply follows_bind.
    + eapply follows_one; reflexivity.
    + intros new_path _. apply IH.
Qed.

Lemma follows_execute_job (simulate : bool) (job : Job) (w : World) :
  follows (execute_job simulate job w) (job_plan job).
Proof.
  unfold execute_job, job_plan.
  change (CLogInfo (path job) :: ?l) with ([CLogInfo (path job)] ++ l).
  apply follows_bind.
  { eapply follows_one; reflexivity. }
  intros _ _. simpl world_after.
  destruct (job_filters job) as [| f fs]; simpl lift.
  - split; [apply prefix_refl | discriminate].
  - change (CParse f (path job) :: CResolve (path job) :: ?l)
      with ([] ++ [CParse f (path job)] ++ [CResolve (path job)] ++ l).
    apply follows_bind.
    { split; [apply prefix_refl | trivial]. }
    intros f' E. injection E as <-. apply follows_bind.
    { eapply follows_one; reflexivity. }
    intros attrs _. apply follows_bind.
    { eapply follows_one; reflexivity. }
    intros cp _. apply follows_for_actions.
Qed.

Lemma follows_for_jobs (simulate : bool) (jobs : list Job) (w : World) :
  follows (for_jobs simulate jobs w) (flat_map job_plan jobs).
Proof.
  revert w. induction jobs as [| job jobs IH]; intros w.
  - split; [apply prefix_refl | trivial].
  - change (follows (bind (execute_job simulate job)
                       (fun _ => for_jobs simulate jobs) w)
              (job_plan job ++ flat_map job_plan jobs)).
    apply follows_bind; [apply follows_execute_job | intros; apply IH].
Qed.

(** Whatever the flag, [execute_rules] follows the plan of the rules in
    the world it starts in. *)
Lemma follows_execute_rules (rules : list Rule) (simulate : bool) (w : World) :
  follows (execute_rules rules simulate w) (plan rules w).
Proof.
  unfold execute_rules, plan. apply follows_bind.
  - split; [apply prefix_refl | trivial].
  - intros jobs E. rewrite E. destruct jobs as [| job jobs].
    + eapply follows_one; reflexivity.
    + unfold jobs_plan.
      change (CLogDebug (job :: jobs) :: ?l) with ([CLogDebug (job :: jobs)] ++ l).
      apply follows_bind.
      * eapply follows_one; reflexivity.
      * intros. apply follows_for_jobs.
Qed.

(** *** One job *)

Lemma trace_bind {A B} (m : M A) (k : A -> M B) (w : World) :
  trace (bind m k w)
  = trace (m w) ++ match value (m w) with
                   | Ok a => trace (k a (world_after (m w)))
                   | Err _ => []
                   end.
Proof.
  unfold bind. destruct (value (m w)); simpl; trivial. now rewrite app_nil_r.
Qed.

Lemma execute_job_eq (simulate : bool) (job : Job) (w : World) :
  execute_job simulate job w =
  match job_filters job with
  | [] =>
      {| world_after := w; trace := [EvLogInfo (path job)];
         value := Err IndexError |}
  | f :: _ =>
      let w1 := fst (parse f (path job) w) in
      match snd (parse f (path job) w) with
      | Err e =>
          {| world_after := w1;
             trace := [EvLogInfo (path job); EvParse f (path job) w];
             value := Err e |}
      | Ok attrs =>
          match resolve w1 (path job) with
          | Err e =>
              {| world_after := w1;
                 trace := [EvLogInfo (path job); EvParse f (path job) w;
                           EvResolve (path job) w1];
                 value := Err e |}
          | Ok current_path =>
              let o := for_actions (job_actions job) attrs simulate
                         current_path w1 in
              {| world_after := world_after o;
                 trace := EvLogInfo (path job) :: EvParse f (path job) w
                          :: EvResolve (path job) w1 :: trace o;
                 value := value o |}
          end
      end
  end.
Proof.
  unfold execute_job, bind, lift, emit, call, ask. simpl.
  destruct (job_filters job) as [| f fs]; simpl; trivial.
  destruct (snd (parse f (path job) w)); simpl; trivial.
  destruct (resolve (fst (parse f (path job) w)) (path job)); simpl; trivial.
Qed.

Lemma for_actions_cons (a : Action) (acts : list Action) (attrs : Attrs)
  (simulate : bool) (current_path : Path) (w : World) :
  for_actions (a :: acts) attrs simulate current_path w =
  let ev := EvRun a current_path attrs simulate w in
  let w1 := fst (run a current_path attrs simulate w) in
  match snd (run a current_path attrs simulate w) with
  | Err e => {| world_after := w1; trace := [ev]; value := Err e |}
  | Ok new_path =>
      let o := for_actions acts attrs simulate
                 (match new_path with
                  | Some p => p
                  | None => current_path
                  end) w1 in
      {| world_after := world_after o; trace := ev :: trace o;
         value := value o |}
  end.
Proof.
  simpl. unfold bind, call. simpl.
  destruct (snd (run a current_path attrs simulate w)); trivial.
Qed.

(** The runs of an action chain are chained, invoke the actions of the
    list in order, and the path the loop ends with is the last
    replacement. *)
Lemma for_actions_chained (acts : list Action) (attrs : Attrs)
  (simulate : bool) (current_path : Path) (w : World) :
  let o := for_actions acts attrs simulate current_path w in
  chained current_path (trace o)
  /\ Forall (fun ev => is_run ev = true) (trace o)
  /\ prefix (run_actions (trace o)) acts
  /\ (forall final, value o = Ok final ->
        final = final_path current_path (trace o)
        /\ run_actions (trace o) = acts).
Proof.
  revert current_path w. induction acts as [| a acts IH]; intros cp w.
  - simpl. repeat split; trivial; try apply prefix_refl; congruence.
  - cbv zeta. rewrite for_actions_cons. cbv zeta.
    pose proof (IH (next_path cp (EvRun a cp attrs simulate w))
                  (fst (run a cp attrs simulate w))) as IH'.
    cbv zeta in IH'. unfold next_path in IH'.
    destruct (snd (run a cp attrs simulate w)) as [new_path | e] eqn:E.
    + assert (En : match new_path with Some p => p | None => cp end
                   = next_path cp (EvRun a cp attrs simulate w)).
      { unfold next_path. rewrite E. now destruct new_path. }
      destruct IH' as (Hc & Hr & Hp & Hf).
      cbn [trace value world_after]. unfold final_path. cbn [fold_left].
      rewrite <- En. repeat split; trivial.
      * cbn [chained]. rewrite <- En. auto.
      * constructor; trivial.
      * apply (prefix_app [a]). exact Hp.
      * now apply Hf.
      * cbn [run_actions flat_map]. simpl. f_equal. now apply (Hf final).
    + cbn [trace value]. repeat split; trivial.
      * repeat constructor.
      * apply (prefix_app_r [a] acts).
      * discriminate.
      * discriminate.
Qed.

(** *** What the runs are given *)

Lemma run_flags_app (tr1 tr2 : list Event) :
  run_flags (tr1 ++ tr2) = run_flags tr1 ++ run_flags tr2.
Proof. apply flat_map_app. Qed.

Lemma run_actions_flags (tr : list Event) :
  run_actions tr = map fst (run_flags tr).
Proof.
  induction tr as [| ev tr IH]; trivial.
  unfold run_actions, run_flags in *. cbn [flat_map].
  rewrite map_app, IH. f_equal. now destruct ev.
Qed.

Lemma run_flags_discovery (tr : list Event) :
  Forall is_discovery tr -> run_flags tr = [].
Proof.
  induction 1 as [| ev tr Hev Htr IH]; trivial.
  unfold run_flags in *. cbn [flat_map]. rewrite IH.
  destruct ev; simpl in Hev; trivial; contradiction.
Qed.

Lemma map_fst_with {A B} (b : B) (l : list A) :
  map fst (map (fun a => (a, b)) l) = l.
Proof. rewrite map_map. apply map_id. Qed.

Lemma prefix_map {A B} (f : A -> B) (l1 l2 : list A) :
  prefix l1 l2 -> prefix (map f l1) (map f l2).
Proof. intros [l3 ->]. exists (map f l3). apply map_app. Qed.

(** The runs of an action chain are the actions of the list in order, as
    far as the chain gets, each with the bundle and the flag of the chain;
    all of them when the chain returns. *)
Lemma for_actions_runs (acts : list Action) (attrs : Attrs) (simulate : bool)
  (current_path : Path) (w : World) :
  let o := for_actions acts attrs simulate current_path w in
  prefix (run_bundles (trace o)) (map (fun a => (a, attrs)) acts)
  /\ prefix (run_flags (trace o)) (map (fun a => (a, simulate)) acts)
  /\ (forall final, value o = Ok final ->
        run_bundles (trace o) = map (fun a => (a, attrs)) acts
        /\ run_flags (trace o) = map (fun a => (a, simulate)) acts).
Proof.
  revert current_path w. induction acts as [| a acts IH]; intros cp w.
  - simpl. repeat split; apply prefix_refl.
  - cbv zeta. rewrite for_actions_cons. cbv zeta.
    destruct (snd (run a cp attrs simulate w)) as [new_path | e].
    + destruct (IH (match new_path with Some p => p | None => cp end)
                  (fst (run a cp attrs simulate w))) as (Hb & Hf & Hok).
      cbn [trace value]. split; [| split].
      * apply (prefix_app [(a, attrs)]). exact Hb.
      * apply (prefix_app [(a, simulate)]). exact Hf.
      * intros final H. destruct (Hok final H) as [E1 E2].
        unfold run_bundles, run_flags in *. cbn [flat_map map app].
        now rewrite E1, E2.
    + cbn [trace value]. split; [| split]; try discriminate.
      * apply (prefix_app_r [(a, attrs)]).
      * apply (prefix_app_r [(a, simulate)]).
Qed.

(** A job that returns has parsed with its first filter and run every
    action of its list, in order, each with the bundle the parse returned
    and with the flag; a job that raises has run the first of them. *)
Lemma execute_job_runs (simulate : bool) (job : Job) (w : World) :
  let o := execute_job simulate job w in
  prefix (run_flags (trace o)) (map (fun a => (a, simulate)) (job_actions job))
  /\ (forall f attrs,
        first (job_filters job) = Ok f ->
        snd (parse f (path job) w) = Ok attrs ->
        prefix (run_bundles (trace o))
          (map (fun a => (a, attrs)) (job_actions job)))
  /\ (forall final, value o = Ok final ->
        run_flags (trace o) = map (fun a => (a, simulate)) (job_actions job)
        /\ exists f attrs,
             first (job_filters job) = Ok f
             /\ snd (parse f (path job) w) = Ok attrs
             /\ run_bundles (trace o)
                = map (fun a => (a, attrs)) (job_actions job)).
Proof.
  cbv zeta. rewrite execute_job_eq.
  destruct (job_filters job) as [| f fs]; cbn [first trace value].
  { repeat split; try discriminate. apply prefix_nil. }
  cbv zeta. destruct (snd (parse f (path job) w)) as [attrs | e] eqn:Ep.
  - destruct (resolve (fst (parse f (path job) w)) (path job))
      as [start | e]; cbn [trace value].
    + destruct (for_actions_runs (job_actions job) attrs simulate start
                  (fst (parse f (path job) w))) as (Hb & Hf & Hok).
      split; [exact Hf |]. split.
      * intros f' attrs' E1 E2. injection E1 as <-. rewrite Ep in E2.
        injection E2 as <-. exact Hb.
      * intros final H. destruct (Hok final H) as [E1 E2].
        split; [exact E2 |]. exists f, attrs. auto.
    + split; [apply prefix_nil |]. split; [| discriminate].
      intros; apply prefix_nil.
  - cbn [trace value]. split; [apply prefix_nil |]. split; [| discriminate].
    intros; apply prefix_nil.
Qed.

Lemma for_jobs_run_flags (simulate : bool) (jobs : list Job) (w : World) :
  let o := for_jobs simulate jobs w in
  prefix (run_flags (trace o))
    (map (fun a => (a, simulate)) (flat_map job_actions jobs))
  /\ (value o = Ok tt ->
      run_flags (trace o)
      = map (fun a => (a, simulate)) (flat_map job_actions jobs)).
Proof.
  cbv zeta. revert w. induction jobs as [| job jobs IH]; intros w.
  - split; [apply prefix_refl | trivial].
  - simpl for_jobs. rewrite trace_bind, run_flags_app.
    cbn [flat_map]. rewrite map_app.
    destruct (execute_job_runs simulate job w) as (Hp & _ & Hok).
    destruct (value (execute_job simulate job w)) as [final | e] eqn:Ej.
    + destruct (bind_ok (execute_job simulate job)
                  (fun _ => for_jobs simulate jobs) w Ej) as (_ & _ & ->).
      destruct (Hok final eq_refl) as [-> _].
      destruct (IH (world_after (execute_job simulate job w))) as [IHp IHok].
      split; [now apply prefix_app |].
      intros H. f_equal. exact (IHok H).
    + destruct (bind_err (execute_job simulate job)
                  (fun _ => for_jobs simulate jobs) w Ej) as (_ & _ & ->).
      split; [| discriminate]. rewrite app_nil_r.
      eapply prefix_trans; [exact Hp | apply prefix_app_r].
Qed.

(** *** Bundles *)

Lemma bundles_app (cur : option Attrs) (tr1 tr2 : list Event) :
  bundles_from_parse cur tr1 ->
  bundles_from_parse (bundle_after cur tr1) tr2 ->
  bundles_from_parse cur (tr1 ++ tr2).
Proof.
  revert cur. induction tr1 as [| ev tr1 IH]; intros cur H1 H2; trivial.
  destruct ev; simpl in *; try (apply IH; trivial).
  destruct H1. split; auto.
Qed.

Lemma bundles_discovery (cur : option Attrs) (tr : list Event) :
  Forall is_discovery tr ->
  bundles_from_parse cur tr /\ bundle_after cur tr = cur.
Proof.
  induction 1 as [| ev tr Hev Htr IH]; simpl; auto.
  destruct ev; simpl in Hev; tauto.
Qed.

Lemma bundles_for_actions (acts : list Action) (attrs : Attrs)
  (simulate : bool) (current_path : Path) (w : World) :
  bundles_from_parse (Some attrs)
    (trace (for_actions acts attrs simulate current_path w)).
Proof.
  revert current_path w. induction acts as [| a acts IH]; intros cp w.
  - exact I.
  - rewrite for_actions_cons. cbv zeta.
    destruct (snd (run a cp attrs simulate w)); simpl; auto.
Qed.

Lemma bundles_execute_job (cur : option Attrs) (simulate : bool) (job : Job)
  (w : World) :
  bundles_from_parse cur (trace (execute_job simulate job w)).
Proof.
  rewrite execute_job_eq. destruct (job_filters job) as [| f fs]; simpl; trivial.
  destruct (snd (parse f (path job) w)) as [attrs | e] eqn:E; simpl;
    rewrite ?E; trivial.
  destruct (resolve (fst (parse f (path job) w)) (path job)); simpl;
    rewrite ?E; trivial.
  apply bundles_for_actions.
Qed.

Lemma bundles_for_jobs (cur : option Attrs) (simulate : bool)
  (jobs : list Job) (w : World) :
  bundles_from_parse cur (trace (for_jobs simulate jobs w)).
Proof.
  revert cur w. induction jobs as [| job jobs IH]; intros cur w.
  - exact I.
  - simpl for_jobs. rewrite trace_bind. apply bundles_app.
    + apply bundles_execute_job.
    + destruct (value (execute_job simulate job w)); [apply IH | exact I].
Qed.

Lemma bundles_execute_rules (rules : list Rule) (simulate : bool) (w : World) :
  bundles_from_parse None (trace (execute_rules rules simulate w)).
Proof.
  unfold execute_rules. rewrite trace_bind.
  destruct (bundles_discovery None (find_jobs_discovery rules w)) as [H1 H2].
  apply bundles_app; trivial. rewrite H2.
  destruct (value (find_jobs rules w)) as [[| job jobs] | e]; try exact I.
  rewrite trace_bind. simpl.
  apply (bundles_for_jobs None simulate (job :: jobs)).
Qed.

(** *** Discovery *)

Lemma bind_looks {A B} (m : M A) (k : A -> M B) (w : World) (a : A) :
  world_after (m w) = w -> value (m w) = Ok a ->
  world_after (bind m k w) = world_after (k a w)
  /\ value (bind m k w) = value (k a w).
Proof.
  intros Hw Hv. destruct (bind_ok m k w Hv) as (-> & _ & ->).
  now rewrite Hw.
Qed.

(** The conjunction of the filters, when they only look at the path. *)
Lemma all_match_looks (w : World) (fs : list Filter) (p : Path) :
  (forall f, In f fs -> exists b, matches f p w = (w, Ok b)) ->
  world_after (all_match fs p w) = w
  /\ value (all_match fs p w) = Ok (forallb (holds w p) fs).
Proof.
  induction fs as [| f fs IH]; intros H; simpl; auto.
  destruct (H f (or_introl eq_refl)) as [b Hb].
  assert (Hh : holds w p f = b) by (unfold holds; now rewrite Hb).
  rewrite Hh.
  destruct (@bind_looks _ _ (call (EvMatches f p) (matches f p))
              (fun b => if b then all_match fs p else ret false) w b)
    as [-> ->]; try (unfold call; simpl; now rewrite Hb).
  destruct b; simpl; auto. apply IH. intros; apply H; now right.
Qed.

Lemma for_paths_looks (w : World) (rule : Rule) (batch : list Path)
  (result : list Job) :
  (forall f p, In f (filters rule) -> In p batch ->
     exists b, matches f p w = (w, Ok b)) ->
  world_after (for_paths rule batch result w) = w
  /\ value (for_paths rule batch result w)
     = Ok (result ++ map (job_of rule) (filter (accepts w rule) batch)).
Proof.
  revert result.
  induction batch as [| p batch IH]; intros result H; simpl.
  - now rewrite app_nil_r.
  - assert (Hp : forall f, In f (filters rule) ->
                   exists b, matches f p w = (w, Ok b))
      by (intros f Hf; apply H; simpl; auto).
    assert (Hb : forall f q, In f (filters rule) -> In q batch ->
                   exists b, matches f q w = (w, Ok b))
      by (intros f q Hf Hq; apply H; simpl; auto).
    destruct (@all_match_looks w (filters rule) p Hp) as [Hw Hv].
    destruct (@bind_looks _ _ (all_match (filters rule) p)
                (fun ok => for_paths rule batch
                             (if ok then result ++ [job_of rule p] else result))
                w _ Hw Hv) as [-> ->].
    unfold accepts at 1 3. destruct (forallb (holds w p) (filters rule)).
    + destruct (IH (result ++ [job_of rule p]) Hb) as [-> ->].
      simpl. now rewrite <- app_assoc.
    + now apply IH.
Qed.

Lemma for_batches_looks (w : World) (rule : Rule) (fds : list string)
  (result : list Job) :
  (forall folder, In folder fds -> exists batch, glob_folder folder w = Ok batch) ->
  (forall f p, In f (filters rule) -> In p (flat_map (listed w) fds) ->
     exists b, matches f p w = (w, Ok b)) ->
  let gen := map (fun folder => ask (EvGlob (Attrs := Attrs) folder)
                                  (glob_folder folder)) fds in
  world_after (for_batches rule gen result w) = w
  /\ value (for_batches rule gen result w)
     = Ok (result ++ map (job_of rule)
                       (filter (accepts w rule) (flat_map (listed w) fds))).
Proof.
  cbv zeta. revert result.
  induction fds as [| folder fds IH]; intros result Hg Hf.
  - simpl. now rewrite app_nil_r.
  - cbn [map for_batches flat_map].
    destruct (Hg folder (or_introl eq_refl)) as [batch Hb].
    assert (El : listed w folder = batch) by (unfold listed; now rewrite Hb).
    match goal with
    | |- world_after (bind ?m ?k w) = _ /\ _ =>
        destruct (@bind_looks _ _ m k w batch) as [-> ->];
          [reflexivity | exact Hb |]
    end.
    assert (Hfb : forall f p, In f (filters rule) -> In p batch ->
                    exists b, matches f p w = (w, Ok b)).
    { intros f p Hin Hp. apply Hf; trivial. cbn [flat_map].
      apply in_or_app. left. now rewrite El. }
    destruct (@for_paths_looks w rule batch result Hfb) as [Hw Hv].
    match goal with
    | |- world_after (bind ?m ?k w) = _ /\ _ =>
        destruct (@bind_looks _ _ m k w _ Hw Hv) as [-> ->]
    end.
    destruct (IH (result ++ map (job_of rule) (filter (accepts w rule) batch))
                (fun f H => Hg f (or_intror H)))
      as [-> ->].
    { intros f p Hin Hp. apply Hf; trivial. cbn [flat_map].
      apply in_or_app. now right. }
    split; trivial. rewrite El.
    now rewrite filter_app, map_app, app_assoc.
Qed.

Lemma for_rules_looks (w : World) (rules : list Rule) (result : list Job) :
  scannable_on_candidates w rules ->
  world_after (for_rules rules result w) = w
  /\ value (for_rules rules result w) = Ok (result ++ discovered w rules).
Proof.
  revert result. induction rules as [| rule rules IH]; intros result Hs.
  - simpl. now rewrite app_nil_r.
  - cbn [for_rules]. destruct (Hs rule (or_introl eq_refl)) as [Hg Hf].
    destruct (@for_batches_looks w rule (folders rule) result Hg Hf) as [Hw Hv].
    match goal with
    | |- world_after (bind ?m ?k w) = _ /\ _ =>
        destruct (@bind_looks _ _ m k w _ Hw Hv) as [-> ->]
    end.
    destruct (IH (result ++ map (job_of rule)
                    (filter (accepts w rule) (flat_map (listed w) (folders rule)))))
      as [-> ->].
    { intros r Hr. apply Hs. now right. }
    split; trivial. unfold discovered. cbn [flat_map].
    now rewrite app_assoc.
Qed.

(** When the folders can be listed and the filters only look at the
    candidates, discovery returns, leaves the world as it is, and its value
    is the sorted list of the jobs of the accepted candidates. *)
Lemma find_jobs_looks_at_candidates (w : World) (rules : list Rule) :
  scannable_on_candidates w rules ->
  world_after (find_jobs rules w) = w
  /\ value (find_jobs rules w) = Ok (sorted path (discovered w rules)).
Proof.
  intros Hs. unfold find_jobs.
  destruct (@for_rules_looks w rules [] Hs) as [Hw Hv].
  match goal with
  | |- world_after (bind ?m ?k w) = _ /\ _ =>
      destruct (@bind_looks _ _ m k w _ Hw Hv) as [-> ->]
  end.
  auto.
Qed.

Lemma scannable_on_its_candidates (w : World) (rules : list Rule) :
  scannable w rules -> scannable_on_candidates w rules.
Proof.
  intros Hs rule Hr. destruct (Hs rule Hr) as [Hg Hf].
  split; [exact Hg |]. intros f p Hin _. exact (Hf f Hin p).
Qed.

Lemma find_jobs_looks (w : World) (rules : list Rule) :
  scannable w rules ->
  world_after (find_jobs rules w) = w
  /\ value (find_jobs rules w) = Ok (sorted path (discovered w rules)).
Proof.
  intros Hs. now apply find_jobs_looks_at_candidates, scannable_on_its_candidates.
Qed.

Lemma find_jobs_sorted_of (rules : list Rule) (w : World) (jobs : list Job) :
  value (find_jobs rules w) = Ok jobs ->
  exists result, value (for_rules rules [] w) = Ok result
                 /\ jobs = sorted path result.
Proof.
  unfold find_jobs. intros H. apply bind_value_ok in H.
  destruct H as (result & Hr & Hv). simpl in Hv. injection Hv as <-. eauto.
Qed.

(** *** Candidates *)

Lemma glob_folder_dotted (w : World) (folder : string) (batch : list Path) :
  glob_folder folder w = Ok batch -> batch = dotted_children w folder.
Proof.
  unfold glob_folder, dotted_children, glob.
  destruct (expanduser w (PosixPath folder)) as [dir | e]; [| discriminate].
  destruct (is_dir w dir) as [[|] | e]; try congruence.
  destruct (listdir w dir) as [names | e].
  - intros E. injection E as <-. unfold make_child_relpath. f_equal.
    apply filter_ext. intros name.
    destruct (in_dec ascii_dec "."%char (list_ascii_of_string name)) as [H | H].
    + now apply name_matches_star_dot_star.
    + destruct (name_matches star_dot_star name) eqn:E; trivial.
      now apply name_matches_star_dot_star in E.
  - destruct e; congruence.
Qed.

Lemma listed_dotted (w : World) (folder : string) :
  listed w folder = dotted_children w folder.
Proof.
  unfold listed. destruct (glob_folder folder w) as [batch | e] eqn:E.
  - now apply glob_folder_dotted.
  - unfold glob_folder, glob, dotted_children in *.
    destruct (expanduser w (PosixPath folder)) as [dir | e']; trivial.
    destruct (is_dir w dir) as [[|] | e'']; trivial.
    destruct (listdir w dir) as [names | e'']; [discriminate | trivial].
Qed.

Lemma exhaust_all_pathes (w : World) (fds : list string) :
  let gen := map (fun folder => ask (EvGlob (Attrs := Attrs) folder)
                                  (glob_folder folder)) fds in
  world_after (exhaust gen w) = w
  /\ (forall batch, value (exhaust gen w) = Ok batch ->
        batch = flat_map (dotted_children w) fds)
  /\ ((forall folder, In folder fds -> is_ok (glob_folder folder w) = true) ->
      is_ok (value (exhaust gen w)) = true).
Proof.
  cbv zeta. induction fds as [| folder fds IH].
  - simpl. repeat split; trivial. congruence.
  - cbn [map exhaust flat_map]. destruct IH as (IHw & IHv & IHk).
    destruct (glob_folder folder w) as [batch | e] eqn:E.
    + match goal with
      | |- world_after (bind ?m ?k w) = _ /\ _ =>
          destruct (@bind_looks _ _ m k w batch) as [Hw Hv];
            [reflexivity | exact E |]
      end.
      rewrite Hw, Hv. clear Hw Hv. unfold bind at 1 2 3.
      destruct (value (exhaust _ w)) as [others | e'] eqn:E'; simpl.
      * repeat split; trivial.
        intros b Hb. injection Hb as <-.
        now rewrite (@glob_folder_dotted w folder batch E), (IHv others eq_refl).
      * repeat split; trivial; try discriminate.
        intros H. apply IHk. intros; apply H; now right.
    + repeat split.
      * unfold bind, ask. simpl. now rewrite E.
      * unfold bind, ask. simpl. rewrite E. discriminate.
      * intros H. specialize (H folder (or_introl eq_refl)).
        rewrite E in H. discriminate.
Qed.

(** *** Discovery with any filters *)

Lemma all_match_true (fs : list Filter) (p : Path) (w : World) :
  value (all_match fs p w) = Ok true ->
  forall f, In f fs ->
    exists w', In (EvMatches f p w') (trace (all_match fs p w))
               /\ snd (matches f p w') = Ok true.
Proof.
  revert w. induction fs as [| f0 fs IH]; intros w H f Hin; [destruct Hin |].
  simpl all_match in *. rewrite trace_bind.
  apply bind_value_ok in H. destruct H as (b & Hb & H).
  unfold call in Hb, H |- *. cbn [value trace world_after] in Hb, H |- *.
  rewrite Hb. destruct b; [| discriminate].
  cbn [app].
  destruct Hin as [<- | Hin].
  - exists w. split; [now left | exact Hb].
  - destruct (IH _ H f Hin) as (w' & Hw & Hm). exists w'.
    split; [now right | exact Hm].
Qed.

Lemma matched_app_l (tr tr' : list Event) (job : Job) :
  matched tr job -> matched (tr ++ tr') job.
Proof.
  intros H f Hf. destruct (H f Hf) as (w & Hin & Hm).
  exists w. split; trivial. apply in_or_app. now left.
Qed.

Lemma matched_app_r (tr tr' : list Event) (job : Job) :
  matched tr' job -> matched (tr ++ tr') job.
Proof.
  intros H f Hf. destruct (H f Hf) as (w & Hin & Hm).
  exists w. split; trivial. apply in_or_app. now right.
Qed.

Lemma for_paths_matched (rule : Rule) (batch : list Path) (tr0 : list Event)
  (result result' : list Job) (w : World) :
  Forall (matched tr0) result ->
  value (for_paths rule batch result w) = Ok result' ->
  Forall (matched (tr0 ++ trace (for_paths rule batch result w))) result'.
Proof.
  revert tr0 result w.
  induction batch as [| p batch IH]; intros tr0 result w Hr H.
  - simpl in *. injection H as <-. now rewrite app_nil_r.
  - simpl for_paths in *. rewrite trace_bind.
    apply bind_value_ok in H. destruct H as (ok & Hok & H).
    rewrite Hok, app_assoc. apply IH; trivial.
    assert (Hr' : Forall (matched (tr0 ++ trace (all_match (filters rule) p w)))
                    result).
    { eapply Forall_impl; [| exact Hr]. intros j. apply matched_app_l. }
    destruct ok; trivial.
    apply Forall_app. split; trivial. constructor; [| constructor].
    apply matched_app_r. exact (all_match_true _ _ _ Hok).
Qed.

Lemma for_batches_matched (rule : Rule) (gen : Generator World Attrs Path)
  (tr0 : list Event) (result result' : list Job) (w : World) :
  Forall (matched tr0) result ->
  value (for_batches rule gen result w) = Ok result' ->
  Forall (matched (tr0 ++ trace (for_batches rule gen result w))) result'.
Proof.
  revert tr0 result w.
  induction gen as [| step gen IH]; intros tr0 result w Hr H.
  - simpl in *. injection H as <-. now rewrite app_nil_r.
  - simpl for_batches in *. rewrite trace_bind.
    apply bind_value_ok in H. destruct H as (batch & Hb & H).
    rewrite Hb, trace_bind.
    apply bind_value_ok in H. destruct H as (result1 & H1 & H).
    rewrite H1, !app_assoc. apply IH; trivial.
    apply for_paths_matched; trivial.
    eapply Forall_impl; [| exact Hr]. intros j. apply matched_app_l.
Qed.

Lemma for_rules_matched (rules : list Rule) (tr0 : list Event)
  (result result' : list Job) (w : World) :
  Forall (matched tr0) result ->
  value (for_rules rules result w) = Ok result' ->
  Forall (matched (tr0 ++ trace (for_rules rules result w))) result'.
Proof.
  revert tr0 result w.
  induction rules as [| rule rules IH]; intros tr0 result w Hr H.
  - simpl in *. injection H as <-. now rewrite app_nil_r.
  - simpl for_rules in *. rewrite trace_bind.
    apply bind_value_ok in H. destruct H as (result1 & H1 & H).
    rewrite H1, app_assoc. apply IH; trivial.
    now apply for_batches_matched.
Qed.

Lemma for_paths_from_rule (rules : list Rule) (rule : Rule)
  (batch : list Path) (result result' : list Job) (w : World) :
  In rule rules ->
  Forall (from_rule rules) result ->
  value (for_paths rule batch result w) = Ok result' ->
  Forall (from_rule rules) result'.
Proof.
  intros Hin. revert result w.
  induction batch as [| p batch IH]; intros result w Hr H.
  - simpl in H. now injection H as <-.
  - simpl in H. apply bind_value_ok in H. destruct H as (ok & _ & H).
    eapply IH; [| exact H]. destruct ok; trivial.
    apply Forall_app. split; trivial. constructor; [| constructor].
    exists rule. auto.
Qed.

Lemma for_batches_from_rule (rules : list Rule) (rule : Rule)
  (gen : Generator World Attrs Path) (result result' : list Job) (w : World) :
  In rule rules ->
  Forall (from_rule rules) result ->
  value (for_batches rule gen result w) = Ok result' ->
  Forall (from_rule rules) result'.
Proof.
  intros Hin. revert result w.
  induction gen as [| step gen IH]; intros result w Hr H.
  - simpl in H. now injection H as <-.
  - simpl in H. apply bind_value_ok in H. destruct H as (batch & _ & H).
    apply bind_value_ok in H. destruct H as (result1 & H1 & H).
    eapply IH; [| exact H]. eapply for_paths_from_rule; eauto.
Qed.

Lemma for_rules_from_rule (rules rs : list Rule) (result result' : list Job)
  (w : World) :
  incl rs rules ->
  Forall (from_rule rules) result ->
  value (for_rules rs result w) = Ok result' ->
  Forall (from_rule rules) result'.
Proof.
  revert result w. induction rs as [| rule rs IH]; intros result w Hi Hr H.
  - simpl in H. now injection H as <-.
  - simpl in H. apply bind_value_ok in H. destruct H as (result1 & H1 & H).
    eapply IH; [| | exact H].
    + intros r Hr'. apply Hi. now right.
    + eapply for_batches_from_rule; eauto. apply Hi. now left.
Qed.

(** Whatever the filters do: a job that [find_jobs] returns carries the
    filters and actions of one rule, and each of these filters was asked
    about the path of the job and returned true. *)
Lemma find_jobs_matched (rules : list Rule) (w : World) (jobs : list Job) :
  value (find_jobs rules w) = Ok jobs ->
  Forall (fun job => from_rule rules job
                     /\ matched (trace (find_jobs rules w)) job) jobs.
Proof.
  intros H. unfold find_jobs in *. rewrite trace_bind.
  apply bind_value_ok in H. destruct H as (result & Hr & H).
  rewrite Hr. simpl in H |- *. injection H as <-. rewrite app_nil_r.
  apply (@Permutation_Forall _ _ result).
  - symmetry. apply sorted_Permutation.
  - apply Forall_and.
    + eapply for_rules_from_rule; eauto using incl_refl.
    + apply (@for_rules_matched rules [] [] result w); auto.
Qed.

(** *** The order of the rules *)

Lemma path_le_antisym (a b : Path) : path_le a b -> path_le b a -> a = b.
Proof.
  unfold path_le. rewrite (path_compare_antisym a b).
  destruct (path_compare a b) eqn:E; simpl; try congruence.
  intros _ _. now apply path_compare_eq.
Qed.

Lemma sorted_paths_unique (l1 l2 : list Path) :
  StronglySorted path_le l1 -> StronglySorted path_le l2 ->
  Permutation l1 l2 -> l1 = l2.
Proof.
  revert l2. induction l1 as [| x l1 IH]; intros l2 H1 H2 Hp.
  - now apply Permutation_nil in Hp.
  - destruct l2 as [| y l2].
    { symmetry in Hp. now apply Permutation_nil in Hp. }
    inversion H1 as [| ? ? Hs1 Hx]; subst.
    inversion H2 as [| ? ? Hs2 Hy]; subst.
    rewrite Forall_forall in Hx, Hy.
    assert (Hxy : path_le x y).
    { destruct (Permutation_in y (Permutation_sym Hp) (or_introl eq_refl))
        as [<- | Hin]; [apply path_le_refl | now apply Hx]. }
    assert (Hyx : path_le y x).
    { destruct (Permutation_in x Hp (or_introl eq_refl))
        as [<- | Hin]; [apply path_le_refl | now apply Hy]. }
    pose proof (path_le_antisym Hxy Hyx) as ->.
    f_equal. apply IH; trivial. now apply Permutation_cons_inv in Hp.
Qed.

Lemma sorted_map_key {A} (key : A -> Path) (l : list A) :
  StronglySorted (key_le key) l -> StronglySorted path_le (map key l).
Proof.
  induction 1 as [| x l Hs IH Hx]; simpl; constructor; trivial.
  now apply Forall_map.
Qed.

Lemma scannable_Permutation (w : World) (rules rules' : list Rule) :
  Permutation rules rules' -> scannable w rules -> scannable w rules'.
Proof.
  intros Hp Hs rule Hr. apply Hs.
  eapply Permutation_in; [symmetry; exact Hp | exact Hr].
Qed.

Lemma discovered_Permutation (w : World) (rules rules' : list Rule) :
  Permutation rules rules' ->
  Permutation (discovered w rules) (discovered w rules').
Proof. intros Hp. unfold discovered. now apply Permutation_flat_map. Qed.

(** *** Discovery: the claims *)

Lemma in_discovered (w : World) (rules : list Rule) (job : Job) :
  In job (discovered w rules) <->
  exists rule, In rule rules /\ In (path job) (candidates w rule)
               /\ accepts w rule (path job) = true
               /\ job = job_of rule (path job).
Proof.
  unfold discovered, accepted. rewrite in_flat_map. split.
  - intros (rule & Hr & Hj). apply in_map_iff in Hj.
    destruct Hj as (p & <- & Hp). apply filter_In in Hp.
    destruct Hp as [Hc Ha]. exists rule. simpl. auto.
  - intros (rule & Hr & Hc & Ha & ->). exists rule. split; trivial.
    apply in_map, filter_In. auto.
Qed.

Lemma discovered_app (w : World) (rules1 rules2 : list Rule) :
  discovered w (rules1 ++ rules2) = discovered w rules1 ++ discovered w rules2.
Proof. apply flat_map_app. Qed.

Lemma accepts_never (w : World) (rule : Rule) (never : Filter) :
  In never (filters rule) -> (forall p, holds w p never = false) ->
  accepted w rule = [].
Proof.
  intros Hin Hn. unfold accepted.
  induction (candidates w rule) as [| p ps IH]; simpl; trivial.
  replace (accepts w rule p) with false; trivial.
  symmetry. apply not_true_is_false. intros H.
  unfold accepts in H. rewrite forallb_forall in H.
  specialize (H _ Hin). rewrite Hn in H. discriminate.
Qed.

(** C1.  Whatever the filters do, a job that [find_jobs] returns carries
    the filters and actions of one rule, each of these filters was asked
    about the path of the job and returned true, and none of them is a
    filter that always returns false.  When the folders of the rules can be
    listed and their filters only look, [find_jobs] returns, and for every
    rule and every candidate path of the rule, the job of that rule for that
    path is in its value if and only if every filter of the rule's filter
    list holds of the path; every job of the value is such a job.  Replacing
    one filter of a rule by a filter that never matches leaves exactly the
    jobs of the other rules. *)
Theorem C1_job_iff_all_filters_match (w : World) (rules : list Rule) :
  (forall jobs job,
      value (find_jobs rules w) = Ok jobs -> In job jobs ->
      from_rule rules job
      /\ matched (trace (find_jobs rules w)) job
      /\ (forall never,
            (forall p w', snd (matches never p w') = Ok false) ->
            ~ In never (job_filters job)))
  /\ (scannable w rules ->
      exists jobs,
        value (find_jobs rules w) = Ok jobs
        /\ (forall rule p,
              In rule rules -> In p (candidates w rule) ->
              (In (job_of rule p) jobs <->
               forall f, In f (filters rule) -> holds w p f = true))
        /\ (forall job,
              In job jobs ->
              exists rule, In rule rules /\ In (path job) (candidates w rule)
                           /\ job = job_of rule (path job))
        /\ (forall pre rule post fs1 f fs2 never,
              rules = pre ++ rule :: post ->
              filters rule = fs1 ++ f :: fs2 ->
              (forall p, matches never p w = (w, Ok false)) ->
              value (find_jobs
                       (pre ++ {| folders := folders rule;
                                  filters := fs1 ++ never :: fs2;
                                  actions := actions rule |} :: post) w)
              = Ok (sorted path (discovered w (pre ++ post))))).
Proof.
  split.
  { intros jobs job Hv Hin. pose proof (find_jobs_matched _ _ Hv) as H.
    rewrite Forall_forall in H. destruct (H _ Hin) as [Hr Hm].
    repeat split; trivial.
    intros never Hn Hnin. destruct (Hm _ Hnin) as (w' & _ & E).
    rewrite Hn in E. discriminate. }
  intros Hs. destruct (find_jobs_looks Hs) as [_ Hv].
  exists (sorted path (discovered w rules)). split; [exact Hv |].
  assert (Hin : forall job, In job (sorted path (discovered w rules))
                            <-> In job (discovered w rules)).
  { intros job. split; apply Permutation_in;
      [| symmetry]; apply sorted_Permutation. }
  split; [| split].
  - intros rule p Hr Hp. rewrite Hin, in_discovered. simpl. split.
    + intros (rule' & Hr' & Hc & Ha & E) f Hf.
      injection E as E1 E2. unfold accepts in Ha.
      rewrite forallb_forall in Ha. apply Ha. now rewrite <- E1.
    + intros H. exists rule. repeat split; trivial.
      unfold accepts. now apply forallb_forall.
  - intros job Hj. apply Hin, in_discovered in Hj.
    destruct Hj as (rule & Hr & Hc & _ & E). eauto.
  - intros pre rule post fs1 f fs2 never -> Hf Hn.
    set (rule' := {| folders := folders rule; filters := fs1 ++ never :: fs2;
                     actions := actions rule |}).
    assert (Hs' : scannable w (pre ++ rule' :: post)).
    { intros r Hr. apply in_app_or in Hr. destruct Hr as [Hr | [<- | Hr]].
      - apply Hs, in_or_app. now left.
      - destruct (Hs rule (in_elt _ _ _)) as [Hg Hl]. split; [exact Hg |].
        simpl. intros g Hg'. apply in_app_or in Hg'.
        destruct Hg' as [Hg' | [<- | Hg']].
        + apply Hl. rewrite Hf. apply in_or_app. now left.
        + intros p. exists false. apply Hn.
        + apply Hl. rewrite Hf. apply in_or_app. right. now right.
      - apply Hs, in_or_app. right. now right. }
    destruct (find_jobs_looks Hs') as [_ ->]. do 2 f_equal.
    change (pre ++ rule' :: post) with (pre ++ [rule'] ++ post).
    rewrite !discovered_app. f_equal.
    unfold discovered at 1. simpl.
    rewrite (@accepts_never w rule' never); trivial.
    + simpl. apply in_elt.
    + intros p. unfold holds. now rewrite Hn.
Qed.

(** C3.  Whatever the rules and the order they are given in, the jobs
    that [find_jobs] returns are sorted by path: each path is at most the
    paths of all the jobs after it.  When the folders can be listed and the
    filters only look, the sequence of paths returned is the same for every
    order of the rules. *)
Theorem C3_find_jobs_sorted_by_path (rules rules' : list Rule) (w : World)
  (jobs : list Job) :
  Permutation rules rules' ->
  value (find_jobs rules' w) = Ok jobs ->
  StronglySorted (key_le path) jobs
  /\ (scannable w rules ->
      exists jobs0,
        value (find_jobs rules w) = Ok jobs0
        /\ map path jobs0 = map path jobs).
Proof.
  intros Hp H.
  assert (Hs : StronglySorted (key_le path) jobs).
  { apply find_jobs_sorted_of in H. destruct H as (result & _ & ->).
    apply sorted_StronglySorted. }
  split; [exact Hs |]. intros Hscan.
  destruct (find_jobs_looks Hscan) as [_ Hv].
  destruct (find_jobs_looks (scannable_Permutation Hp Hscan)) as [_ Hv'].
  rewrite Hv' in H. injection H as <-.
  exists (sorted path (discovered w rules)). split; [exact Hv |].
  apply sorted_paths_unique.
  - apply sorted_map_key, sorted_StronglySorted.
  - now apply sorted_map_key.
  - apply Permutation_map.
    rewrite !sorted_Permutation. now apply discovered_Permutation.
Qed.

Lemma in_dotted_children (w : World) (folder : string) (p : Path) :
  In p (dotted_children w folder) <->
  exists dir names name,
    expanduser w (PosixPath folder) = Ok dir
    /\ is_dir w dir = Ok true
    /\ listdir w dir = Ok names
    /\ In name names
    /\ In "."%char (list_ascii_of_string name)
    /\ p = dir ++ [name].
Proof.
  unfold dotted_children. split.
  - destruct (expanduser w (PosixPath folder)) as [dir | e]; [| contradiction].
    destruct (is_dir w dir) as [[|] | e] eqn:Ed; try contradiction.
    destruct (listdir w dir) as [names | e] eqn:El; [| contradiction].
    intros H. apply in_map_iff in H. destruct H as (name & <- & H).
    apply filter_In in H. destruct H as [Hin Hdot].
    destruct (in_dec ascii_dec "."%char (list_ascii_of_string name));
      [| discriminate].
    exists dir, names, name. repeat split; trivial.
  - intros (dir & names & name & -> & -> & -> & Hin & Hdot & ->).
    apply in_map_iff. exists name. split; trivial.
    apply filter_In. split; trivial.
    destruct (in_dec ascii_dec "."%char (list_ascii_of_string name)); tauto.
Qed.

(** C5 (as the code has it).  Running the generator [all_pathes] of a rule
    to its end leaves the world as it is and, when it returns, yields for
    each declared folder in order, after [~] expansion, the direct children
    of that folder whose name contains a dot and nothing else: one level
    deep, whether the child is a file or a directory. *)
Theorem C5_candidates_are_dotted_children (rule : Rule) (w : World) :
  world_after (exhaust (all_pathes rule) w) = w
  /\ (forall batch,
        value (exhaust (all_pathes rule) w) = Ok batch ->
        batch = flat_map (dotted_children w) (folders rule))
  /\ ((forall folder, In folder (folders rule) ->
         is_ok (glob_folder folder w) = true) ->
      is_ok (value (exhaust (all_pathes rule) w)) = true)
  /\ (forall folder p,
        In p (dotted_children w folder) <->
        exists dir names name,
          expanduser w (PosixPath folder) = Ok dir
          /\ is_dir w dir = Ok true
          /\ listdir w dir = Ok names
          /\ In name names
          /\ In "."%char (list_ascii_of_string name)
          /\ p = dir ++ [name]).
Proof.
  destruct (exhaust_all_pathes w (folders rule)) as (H1 & H2 & H3).
  repeat split; trivial; apply in_dotted_children.
Qed.

Lemma find_jobs_no_folders (rules : list Rule) (w : World) :
  (forall rule, In rule rules -> folders rule = []) ->
  find_jobs rules w = {| world_after := w; trace := []; value := Ok [] |}.
Proof.
  intros H. unfold find_jobs.
  assert (E : forall result,
             for_rules rules result w
             = {| world_after := w; trace := []; value := Ok result |}).
  { induction rules as [| rule rules IH]; intros result; trivial.
    simpl. unfold all_pathes. rewrite (H rule (or_introl eq_refl)). simpl.
    unfold bind at 1. simpl. rewrite IH; trivial.
    intros r Hr. apply H. now right. }
  unfold bind. now rewrite E.
Qed.

(** C7.  Whenever [find_jobs] returns the empty list, [execute_rules]
    prints the notice and returns normally, having parsed nothing and run
    nothing: its trace is the trace of discovery followed by the notice. *)
Theorem C7_nothing_to_do (rules : list Rule) (simulate : bool) (w : World) :
  value (find_jobs rules w) = Ok [] ->
  value (execute_rules rules simulate w) = Ok tt
  /\ trace (execute_rules rules simulate w)
     = trace (find_jobs rules w) ++ [EvPrint "Nothing to do."]
  /\ world_after (execute_rules rules simulate w)
     = world_after (find_jobs rules w)
  /\ Forall (fun ev => is_parse ev = false /\ is_run ev = false)
       (trace (execute_rules rules simulate w)).
Proof.
  intros H. unfold execute_rules.
  destruct (bind_ok (find_jobs rules)
              (fun jobs => match jobs with
                           | [] => emit (EvPrint "Nothing to do.")
                           | _ :: _ =>
                               _ <- emit (EvLogDebug jobs) ;;
                               for_jobs simulate jobs
                           end) w H) as (-> & -> & ->).
  simpl. repeat split; trivial.
  apply Forall_app. split.
  - eapply Forall_impl; [| apply find_jobs_discovery].
    intros ev Hev. destruct ev; simpl in *; tauto.
  - repeat constructor.
Qed.

(** *** Execution: the claims *)

Lemma threads_replay (w w' : World) (tr : list Event) :
  threads w tr w' -> Forall filter_call_looks tr -> w' = replay_runs w tr.
Proof.
  intros Ht Hl. revert w Ht.
  induction Hl as [| ev tr Hev Hl IH]; intros w Ht; simpl in *.
  - congruence.
  - destruct ev; simpl in *; try (destruct Ht as [-> Ht]); auto.
    + apply IH. congruence.
    + apply IH. congruence.
Qed.

Lemma parse_free_of_runs (tr : list Event) :
  Forall (fun ev => is_run ev = true) tr -> filter is_parse tr = [].
Proof.
  induction 1 as [| ev tr Hev Htr IH]; trivial.
  destruct ev; simpl in *; trivial; discriminate.
Qed.

(** C2.  A job whose first filter parses and whose path resolves: after the
    log line, the parse and the resolution, the trace of the job is made of
    runs only; the first run is given the resolved path, every later run is
    given the path the last run before it that returned one returned, or
    the path that run was given when none did; the actions are run in
    the order of the list; and the path the loop ends with is the last
    replacement. *)
Theorem C2_path_chaining (simulate : bool) (job : Job) (w w1 : World)
  (f : Filter) (attrs : Attrs) (start : Path) :
  first (job_filters job) = Ok f ->
  parse f (path job) w = (w1, Ok attrs) ->
  resolve w1 (path job) = Ok start ->
  exists runs,
    trace (execute_job simulate job w)
    = EvLogInfo (path job) :: EvParse f (path job) w
      :: EvResolve (path job) w1 :: runs
    /\ Forall (fun ev => is_run ev = true) runs
    /\ chained start runs
    /\ prefix (run_actions runs) (job_actions job)
    /\ (forall final,
          value (execute_job simulate job w) = Ok final ->
          run_actions runs = job_actions job
          /\ final = final_path start runs).
Proof.
  intros Hf Hp Hr. rewrite execute_job_eq.
  destruct (job_filters job) as [| f' fs]; [discriminate |].
  injection Hf as ->. cbv zeta. rewrite Hp. simpl fst. simpl snd. rewrite Hr.
  destruct (for_actions_chained (job_actions job) attrs simulate start w1)
    as (Hc & Hruns & Hpre & Hfin).
  eexists. split; [reflexivity |]. repeat split; trivial;
    simpl in H; now destruct (Hfin _ H).
Qed.

Lemma execute_job_parse_of_first (simulate : bool) (job : Job) (w : World) :
  Forall (parse_of_first [job]) (trace (execute_job simulate job w)).
Proof.
  rewrite execute_job_eq. destruct (job_filters job) as [| f fs] eqn:Ef.
  - repeat constructor.
  - assert (Hp : parse_of_first [job] (EvParse f (path job) w)).
    { exists job. rewrite Ef. simpl. auto. }
    cbv zeta. destruct (snd (parse f (path job) w)).
    + destruct (resolve (fst (parse f (path job) w)) (path job));
        repeat (constructor; simpl; trivial).
      eapply Forall_impl;
        [| apply (for_actions_chained (job_actions job) a simulate a0
                    (fst (parse f (path job) w)))].
      intros ev Hev. destruct ev; simpl in *; trivial; discriminate.
    + repeat (constructor; simpl; trivial).
Qed.

Lemma parse_of_first_incl (jobs jobs' : list Job) (ev : Event) :
  incl jobs jobs' -> parse_of_first jobs ev -> parse_of_first jobs' ev.
Proof.
  intros Hi. destruct ev; simpl; trivial.
  intros (job & Hj & H). exists job. auto.
Qed.

Lemma for_jobs_parse_of_first (simulate : bool) (jobs : list Job) (w : World) :
  Forall (parse_of_first jobs) (trace (for_jobs simulate jobs w)).
Proof.
  revert w. induction jobs as [| job jobs IH]; intros w; [constructor |].
  simpl for_jobs. rewrite trace_bind. apply Forall_app. split.
  - eapply Forall_impl; [| apply execute_job_parse_of_first].
    intros ev. apply parse_of_first_incl. intros j [<- | []]. now left.
  - destruct (value (execute_job simulate job w)); [| constructor].
    eapply Forall_impl; [| apply IH].
    intros ev. apply parse_of_first_incl. intros j Hj. now right.
Qed.

(** Every action of every discovered job is run, in the order of the
    jobs and of their lists, each with the flag, as far as the execution
    gets; all of them when it returns. *)
Lemma execute_rules_run_flags (rules : list Rule) (simulate : bool) (w : World)
  (jobs : list Job) :
  value (find_jobs rules w) = Ok jobs ->
  prefix (run_flags (trace (execute_rules rules simulate w)))
    (map (fun a => (a, simulate)) (flat_map job_actions jobs))
  /\ (value (execute_rules rules simulate w) = Ok tt ->
      run_flags (trace (execute_rules rules simulate w))
      = map (fun a => (a, simulate)) (flat_map job_actions jobs)).
Proof.
  intros Hv.
  assert (Hd : run_flags (trace (find_jobs rules w)) = [])
    by apply run_flags_discovery, find_jobs_discovery.
  assert (E : run_flags (trace (execute_rules rules simulate w))
              = run_flags (trace (for_jobs simulate jobs
                                    (world_after (find_jobs rules w))))
              /\ (value (execute_rules rules simulate w) = Ok tt ->
                  value (for_jobs simulate jobs
                           (world_after (find_jobs rules w))) = Ok tt)).
  { unfold execute_rules. rewrite trace_bind, run_flags_app, Hd. unfold bind at 2.
    rewrite Hv. destruct jobs as [| job jobs]; [split; reflexivity |].
    cbn [value]. rewrite trace_bind. split; [reflexivity |].
    cbn [emit value world_after]. trivial. }
  destruct E as [-> Ev].
  destruct (for_jobs_run_flags simulate jobs (world_after (find_jobs rules w)))
    as [Hp Hok].
  split; [exact Hp |]. intros H. exact (Hok (Ev H)).
Qed.

Lemma execute_rules_run_actions (rules : list Rule) (simulate : bool)
  (w : World) (jobs : list Job) :
  value (find_jobs rules w) = Ok jobs ->
  prefix (run_actions (trace (execute_rules rules simulate w)))
    (flat_map job_actions jobs)
  /\ (value (execute_rules rules simulate w) = Ok tt ->
      run_actions (trace (execute_rules rules simulate w))
      = flat_map job_actions jobs).
Proof.
  intros Hv. destruct (execute_rules_run_flags rules simulate w Hv) as [Hp Hok].
  rewrite run_actions_flags. split.
  - rewrite <- (map_fst_with simulate (flat_map job_actions jobs)).
    now apply prefix_map.
  - intros H. rewrite (Hok H). apply map_fst_with.
Qed.

(** C4.  In the trace of a job there is exactly one parse, that of the
    first filter of the job's list on the job's path (none when the list is
    empty), and every run of the job is given the bundle that this parse
    returned; the runs are those of the actions of the job's list, in
    order, as far as the job gets, and a job that returns has run every
    action of its list, each with that bundle.  In the trace of
    [execute_rules] every parse is the parse of the first filter of a
    discovered job, every run is given the bundle returned by the parse last
    before it, and the actions run are those of the discovered jobs, in
    order: all of them when [execute_rules] returns. *)
Theorem C4_bundle_from_first_filter (simulate : bool) :
  (forall (job : Job) (w : World),
      filter is_parse (trace (execute_job simulate job w))
      = match job_filters job with
        | [] => []
        | f :: _ => [EvParse f (path job) w]
        end
      /\ (forall a p attrs s w',
            In (EvRun a p attrs s w') (trace (execute_job simulate job w)) ->
            exists f, first (job_filters job) = Ok f
                      /\ snd (parse f (path job) w) = Ok attrs)
      /\ (forall f attrs,
            first (job_filters job) = Ok f ->
            snd (parse f (path job) w) = Ok attrs ->
            prefix (run_bundles (trace (execute_job simulate job w)))
              (map (fun a => (a, attrs)) (job_actions job)))
      /\ (forall final,
            value (execute_job simulate job w) = Ok final ->
            exists f attrs,
              first (job_filters job) = Ok f
              /\ snd (parse f (path job) w) = Ok attrs
              /\ run_bundles (trace (execute_job simulate job w))
                 = map (fun a => (a, attrs)) (job_actions job)))
  /\ (forall (rules : list Rule) (w : World),
        bundles_from_parse None (trace (execute_rules rules simulate w))
        /\ (forall f p w',
              In (EvParse f p w') (trace (execute_rules rules simulate w)) ->
              exists jobs job,
                value (find_jobs rules w) = Ok jobs
                /\ In job jobs
                /\ first (job_filters job) = Ok f
                /\ p = path job)
        /\ (forall jobs,
              value (find_jobs rules w) = Ok jobs ->
              prefix (run_actions (trace (execute_rules rules simulate w)))
                (flat_map job_actions jobs)
              /\ (value (execute_rules rules simulate w) = Ok tt ->
                  run_actions (trace (execute_rules rules simulate w))
                  = flat_map job_actions jobs))).
Proof.
  split.
  - intros job w.
    destruct (execute_job_runs simulate job w) as (_ & Hpre & Hall).
    split; [| split; [| split; [exact Hpre |]]];
      [| | intros final H; exact (proj2 (Hall final H))].
    + rewrite execute_job_eq.
      destruct (job_filters job) as [| f fs]; simpl; trivial.
      destruct (snd (parse f (path job) w)) as [attrs | e]; simpl; trivial.
      destruct (resolve (fst (parse f (path job) w)) (path job))
        as [start | e]; simpl; trivial.
      destruct (for_actions_chained (job_actions job) attrs simulate start
                  (fst (parse f (path job) w))) as (_ & Hruns & _).
      now rewrite (parse_free_of_runs Hruns).
    + rewrite execute_job_eq.
      destruct (job_filters job) as [| f fs]; simpl.
      { intros a p attrs s w' [H | []]. discriminate. }
      destruct (snd (parse f (path job) w)) as [attrs | e] eqn:Ep; simpl.
      * destruct (resolve (fst (parse f (path job) w)) (path job))
          as [start | e]; simpl.
        { intros a p attrs' s w' [H | [H | [H | H]]]; try discriminate.
          exists f. split; trivial.
          pose proof (@emits_for_actions
                        (fun ev => match ev with
                                   | EvRun _ _ at' _ _ => at' = attrs
                                   | _ => True
                                   end)
                        (job_actions job) attrs simulate start
                        (fun _ _ _ => eq_refl)
                        (fst (parse f (path job) w))) as He.
          rewrite Forall_forall in He. specialize (He _ H). simpl in He.
          now subst. }
        { intros a p attrs' s w' [H | [H | [H | []]]]; discriminate. }
      * intros a p attrs' s w' [H | [H | []]]; discriminate.
  - intros rules w. split; [apply bundles_execute_rules |].
    split; [| intros jobs Hv; now apply execute_rules_run_actions].
    intros f p w' Hin. unfold execute_rules in Hin. rewrite trace_bind in Hin.
    apply in_app_or in Hin. destruct Hin as [Hin | Hin].
    + pose proof (find_jobs_discovery rules w) as Hd.
      rewrite Forall_forall in Hd. destruct (Hd _ Hin).
    + destruct (value (find_jobs rules w)) as [jobs | e]; [| destruct Hin].
      destruct jobs as [| job jobs].
      * destruct Hin as [H | []]. discriminate.
      * rewrite trace_bind in Hin. simpl in Hin.
        destruct Hin as [H | Hin]; [discriminate |].
        pose proof (for_jobs_parse_of_first simulate (job :: jobs)
                      (world_after (find_jobs rules w))) as Hp.
        rewrite Forall_forall in Hp. specialize (Hp _ Hin).
        destruct Hp as (j & Hj & Hf & ->). eauto 6.
Qed.

(** C6 (as the code has it).  The flag given to [execute_rules] is the
    flag of every run, and the runs are those of the actions of the
    discovered jobs, in order, as far as the execution gets: when it returns,
    every action of every job was run once, with that flag.  Every event
    starts in the world its predecessor left: the world changes inside the
    calls and nowhere else, and when the filter calls leave it as it is, the
    final world is the initial one with the action runs applied.  With the
    other flag the discovery is the same, the same calls are made in the
    same order up to the first call that raises in either execution, and all
    of them when both executions return. *)
Theorem C6_simulate_flows_and_engine_does_not_mutate (rules : list Rule)
  (simulate : bool) (w : World) :
  let o := execute_rules rules simulate w in
  let o' := execute_rules rules (negb simulate) w in
  runs_with simulate (trace o)
  /\ (forall jobs,
        value (find_jobs rules w) = Ok jobs ->
        prefix (run_flags (trace o))
          (map (fun a => (a, simulate)) (flat_map job_actions jobs))
        /\ (value o = Ok tt ->
            run_flags (trace o)
            = map (fun a => (a, simulate)) (flat_map job_actions jobs)))
  /\ threads w (trace o) (world_after o)
  /\ (Forall filter_call_looks (trace o) ->
      world_after o = replay_runs w (trace o))
  /\ prefix (trace (find_jobs rules w)) (trace o)
  /\ prefix (trace (find_jobs rules w)) (trace o')
  /\ (prefix (calls (trace o)) (calls (trace o'))
      \/ prefix (calls (trace o')) (calls (trace o)))
  /\ (value o = Ok tt -> value o' = Ok tt ->
      calls (trace o) = calls (trace o')).
Proof.
  cbv zeta.
  destruct (sound_execute_rules rules simulate w) as [Ht _].
  destruct (follows_execute_rules rules simulate w) as [Hp He].
  destruct (follows_execute_rules rules (negb simulate) w) as [Hp' He'].
  split; [apply execute_rules_runs_with |].
  split; [intros jobs Hv; now apply execute_rules_run_flags |].
  repeat split.
  - exact Ht.
  - intros Hl. now apply threads_replay.
  - apply trace_bind_prefix.
  - apply trace_bind_prefix.
  - eapply prefix_comparable; eauto.
  - intros H H'. rewrite (He _ H), (He' _ H'). reflexivity.
Qed.

(** C9.  An event of [execute_rules] that raised, whether the run of an
    action, a call of a filter, the listing of a folder or the resolution
    of a path, is the last event of the trace: no remaining action of the
    chain and no later job is reached.  Its exception is the value of
    [execute_rules], and the final world is the world that call left,
    reached through the calls before it: nothing is undone. *)
Theorem C9_exceptions_propagate (rules : list Rule) (simulate : bool)
  (w : World) (tr1 tr2 : list Event) (ev : Event) (e : exn) :
  trace (execute_rules rules simulate w) = tr1 ++ ev :: tr2 ->
  raised ev = Some e ->
  tr2 = []
  /\ value (execute_rules rules simulate w) = Err e
  /\ (forall w0 w1,
        effect ev = Some (w0, w1) ->
        threads w tr1 w0
        /\ world_after (execute_rules rules simulate w) = w1).
Proof.
  intros Htr Hev.
  destruct (sound_execute_rules rules simulate w) as [Ht Hend].
  rewrite Htr in Ht, Hend.
  destruct (@ending_raised_last _ tr1 tr2 ev e _ Hend Hev) as [-> Hv].
  split; [trivial |]. split; [trivial |]. intros w0 w1 Hef.
  apply threads_app_inv in Ht. destruct Ht as (wm & H1 & H2).
  simpl in H2. rewrite Hef in H2. destruct H2 as [-> H2]. auto.
Qed.

(** *** Two rules for one path, and rules without filters *)

Lemma filter_split {A} (P : A -> bool) (l l1 l2 : list A) (x : A) :
  filter P l = l1 ++ x :: l2 ->
  exists a b, l = a ++ x :: b /\ filter P a = l1 /\ filter P b = l2.
Proof.
  revert l1. induction l as [| y l IH]; intros l1 E; simpl in E.
  - now destruct l1.
  - destruct (P y) eqn:Py.
    + destruct l1 as [| z l1]; simpl in E; injection E as <- E.
      * exists [], l. auto.
      * destruct (IH _ E) as (a & b & -> & <- & <-).
        exists (y :: a), b. simpl. rewrite Py. auto.
    + destruct (IH _ E) as (a & b & -> & <- & <-).
      exists (y :: a), b. simpl. rewrite Py. auto.
Qed.

(** Two elements with the same key come out of [sorted] in the order they
    went in. *)
Lemma sorted_keeps_order {A} (key : A -> Path) (l X Y Z : list A) (x y : A) :
  l = X ++ x :: Y ++ y :: Z -> key x = key y ->
  exists a b c, sorted key l = a ++ x :: b ++ y :: c.
Proof.
  intros -> Hk.
  pose proof (sorted_stable key (key x) (X ++ x :: Y ++ y :: Z)) as E.
  rewrite (filter_app _ X) in E. cbn [filter] in E.
  rewrite (proj2 (has_key_eq key (key x) x) eq_refl) in E.
  rewrite (filter_app _ Y) in E. cbn [filter] in E.
  rewrite (proj2 (has_key_eq key (key x) y) (eq_sym Hk)) in E.
  apply filter_split in E. destruct E as (a & b & E & _ & Eb).
  apply filter_split in Eb. destruct Eb as (b1 & b2 & -> & _ & _).
  eauto.
Qed.

Lemma for_jobs_ok_filters (simulate : bool) (jobs : list Job) (w : World) :
  value (for_jobs simulate jobs w) = Ok tt ->
  Forall (fun job => job_filters job <> []) jobs.
Proof.
  revert w. induction jobs as [| job jobs IH]; intros w H; [constructor |].
  simpl in H. apply bind_value_ok in H. destruct H as (final & Hj & H).
  constructor; [| eapply IH; eauto].
  intros E. rewrite execute_job_eq, E in Hj. discriminate.
Qed.

Lemma for_jobs_reaches_empty (simulate : bool) (ja jb : list Job) (job : Job)
  (w : World) :
  job_filters job = [] ->
  value (for_jobs simulate ja w) = Ok tt ->
  value (for_jobs simulate (ja ++ job :: jb) w) = Err IndexError
  /\ trace (for_jobs simulate (ja ++ job :: jb) w)
     = trace (for_jobs simulate ja w) ++ [EvLogInfo (path job)]
  /\ world_after (for_jobs simulate (ja ++ job :: jb) w)
     = world_after (for_jobs simulate ja w).
Proof.
  intros Ef. revert w. induction ja as [| j ja IH]; intros w H.
  - simpl app. simpl for_jobs.
    assert (Hj : value (execute_job simulate job w) = Err IndexError)
      by now rewrite execute_job_eq, Ef.
    destruct (bind_err (execute_job simulate job)
                (fun _ => for_jobs simulate jb) w Hj) as (-> & -> & ->).
    rewrite execute_job_eq, Ef. auto.
  - simpl app. simpl for_jobs in *.
    destruct (bind_value_ok _ _ _ H) as (final & Hj & H').
    destruct (bind_ok (execute_job simulate j)
                (fun _ => for_jobs simulate (ja ++ job :: jb)) w Hj)
      as (-> & -> & ->).
    destruct (bind_ok (execute_job simulate j)
                (fun _ => for_jobs simulate ja) w Hj) as (-> & -> & _).
    destruct (IH _ H') as (-> & -> & ->).
    now rewrite app_assoc.
Qed.

Lemma jobs_plan_nonempty (jobs : list Job) :
  jobs <> [] -> jobs_plan jobs = CLogDebug jobs :: flat_map job_plan jobs.
Proof. destruct jobs; [congruence | reflexivity]. Qed.

Lemma plan_has_no_print (w : World) (rules : list Rule) (job : Job)
  (jobs : list Job) (s : string) :
  value (find_jobs rules w) = Ok (job :: jobs) ->
  ~ In (CPrint s) (plan rules w).
Proof.
  intros Hv Hin. unfold plan in Hin. rewrite Hv in Hin.
  apply in_app_or in Hin. destruct Hin as [Hin | [Hin | Hin]].
  - unfold calls in Hin. apply in_map_iff in Hin.
    destruct Hin as (ev & E & Hin).
    pose proof (find_jobs_discovery rules w) as Hd.
    rewrite Forall_forall in Hd. specialize (Hd _ Hin).
    destruct ev; simpl in *; try contradiction; discriminate.
  - discriminate.
  - apply in_flat_map in Hin. destruct Hin as (j & _ & Hin).
    unfold job_plan in Hin. destruct Hin as [Hin | Hin]; [discriminate |].
    destruct (job_filters j); [destruct Hin |].
    destruct Hin as [Hin | [Hin | Hin]]; try discriminate.
    apply in_map_iff in Hin. destruct Hin as (a & E & _). discriminate.
Qed.

Lemma map_path_discovered (w : World) (rules : list Rule) :
  map path (discovered w rules) = flat_map (accepted w) rules.
Proof.
  unfold discovered. induction rules as [| rule rules IH]; trivial.
  cbn [flat_map]. rewrite map_app, IH, map_map. f_equal. apply map_id.
Qed.

(** C8.  When the folders can be listed and the filters only look at the
    candidates, and a path is an accepted candidate of two rules of the
    list, [find_jobs] returns two jobs for that path, one with the filters
    and actions of each rule, the job of the earlier rule first; nothing
    discovered is dropped: the paths of the jobs are the accepted candidates
    of all the rules, each as often as it was accepted.  [execute_rules]
    follows the plan that runs both jobs in that order; when it returns, the
    actions it ran are, in order, those of the jobs before, the actions of
    the first rule, those of the jobs between, the actions of the second
    rule, and those of the jobs after; and it prints nothing. *)
Theorem C8_same_path_two_rules (w : World) (pre mid post : list Rule)
  (r1 r2 : Rule) (p : Path) (simulate : bool) :
  scannable_on_candidates w (pre ++ r1 :: mid ++ r2 :: post) ->
  In p (accepted w r1) ->
  In p (accepted w r2) ->
  exists jobs ja j1 jb j2 jc,
    value (find_jobs (pre ++ r1 :: mid ++ r2 :: post) w) = Ok jobs
    /\ jobs = ja ++ j1 :: jb ++ j2 :: jc
    /\ (path j1 = p /\ job_filters j1 = filters r1
        /\ job_actions j1 = actions r1)
    /\ (path j2 = p /\ job_filters j2 = filters r2
        /\ job_actions j2 = actions r2)
    /\ Permutation jobs (discovered w (pre ++ r1 :: mid ++ r2 :: post))
    /\ Permutation (map path jobs)
         (flat_map (accepted w) (pre ++ r1 :: mid ++ r2 :: post))
    /\ StronglySorted (key_le path) jobs
    /\ follows (execute_rules (pre ++ r1 :: mid ++ r2 :: post) simulate w)
         (calls (trace (find_jobs (pre ++ r1 :: mid ++ r2 :: post) w))
          ++ CLogDebug jobs
             :: flat_map job_plan ja ++ job_plan j1
                ++ flat_map job_plan jb ++ job_plan j2
                ++ flat_map job_plan jc)
    /\ (value (execute_rules (pre ++ r1 :: mid ++ r2 :: post) simulate w)
        = Ok tt ->
        run_actions
          (trace (execute_rules (pre ++ r1 :: mid ++ r2 :: post) simulate w))
        = flat_map job_actions ja ++ actions r1
          ++ flat_map job_actions jb ++ actions r2
          ++ flat_map job_actions jc)
    /\ (forall s,
          ~ In (EvPrint s)
              (trace (execute_rules (pre ++ r1 :: mid ++ r2 :: post)
                        simulate w))).
Proof.
  intros Hs H1 H2. set (rules := pre ++ r1 :: mid ++ r2 :: post) in *.
  destruct (find_jobs_looks_at_candidates Hs) as [_ Hv].
  apply in_split in H1, H2.
  destruct H1 as (a1 & b1 & E1), H2 as (a2 & b2 & E2).
  assert (Ed : discovered w rules
               = (discovered w pre ++ map (job_of r1) a1)
                 ++ job_of r1 p
                 :: (map (job_of r1) b1 ++ discovered w mid
                     ++ map (job_of r2) a2)
                 ++ job_of r2 p :: (map (job_of r2) b2 ++ discovered w post)).
  { unfold rules.
    change (pre ++ r1 :: mid ++ r2 :: post)
      with (pre ++ [r1] ++ mid ++ [r2] ++ post).
    rewrite !discovered_app. unfold discovered at 2 4. simpl.
    rewrite E1, E2, !map_app, !app_nil_r. simpl.
    now rewrite <- !app_assoc. }
  destruct (@sorted_keeps_order _ path _ _ _ _ _ _ Ed
              (eq_refl : path (job_of r1 p) = path (job_of r2 p)))
    as (ja & jb & jc & Ej).
  exists (sorted path (discovered w rules)), ja, (job_of r1 p), jb,
    (job_of r2 p), jc.
  assert (Hf : follows (execute_rules rules simulate w) (plan rules w))
    by apply follows_execute_rules.
  assert (Hplan : plan rules w
                  = calls (trace (find_jobs rules w))
                    ++ CLogDebug (sorted path (discovered w rules))
                       :: flat_map job_plan ja ++ job_plan (job_of r1 p)
                          ++ flat_map job_plan jb ++ job_plan (job_of r2 p)
                          ++ flat_map job_plan jc).
  { unfold plan. rewrite Hv. f_equal.
    rewrite jobs_plan_nonempty by (rewrite Ej; now destruct ja).
    f_equal. rewrite Ej, flat_map_app. cbn [flat_map].
    rewrite flat_map_app. reflexivity. }
  split; [exact Hv |]. split; [exact Ej |].
  split; [simpl; auto |]. split; [simpl; auto |].
  split; [apply sorted_Permutation |].
  split.
  { rewrite <- map_path_discovered. apply Permutation_map, sorted_Permutation. }
  split; [apply sorted_StronglySorted |].
  split; [rewrite <- Hplan; exact Hf |].
  split.
  - intros Hok.
    destruct (execute_rules_run_actions rules simulate w Hv) as [_ Hall].
    rewrite (Hall Hok), Ej, flat_map_app. cbn [flat_map].
    rewrite flat_map_app. cbn [flat_map]. reflexivity.
  - intros s Hin. rewrite Ej in Hv.
    assert (Hv' : exists j js, value (find_jobs rules w) = Ok (j :: js)).
    { destruct ja; simpl in Hv; eauto. }
    destruct Hv' as (j & js & Hv').
    apply (@plan_has_no_print w rules j js s Hv').
    destruct Hf as [[rest ->] _].
    apply in_or_app. left. unfold calls.
    change (CPrint s)
      with (call_of (EvPrint (World := World) (Attrs := Attrs) s)).
    now apply in_map.
Qed.

(** C10.  A rule without filters, among rules whose folders can be listed
    and whose filters only look: every candidate path of the rule becomes a
    job, and if there is one, [execute_rules] does not return normally.  A
    job stops right after its log line exactly when its filter list is
    empty, and then with [IndexError] and the world as it was; in a list of
    jobs, when the jobs before it return, the run ends there with
    [IndexError].  The first-element access fails exactly on the empty
    list, and only with [IndexError]. *)
Theorem C10_rule_without_filters (w : World) (rules : list Rule) (rule : Rule)
  (simulate : bool) :
  scannable w rules -> In rule rules -> filters rule = [] ->
  (exists jobs,
      value (find_jobs rules w) = Ok jobs
      /\ (forall p, In p (candidates w rule) -> In (job_of rule p) jobs)
      /\ (candidates w rule <> [] ->
          exists e, value (execute_rules rules simulate w) = Err e))
  /\ (forall (job : Job) (w' : World),
        (job_filters job = []
         <-> trace (execute_job simulate job w') = [EvLogInfo (path job)])
        /\ (job_filters job = [] ->
            value (execute_job simulate job w') = Err IndexError
            /\ world_after (execute_job simulate job w') = w'))
  /\ (forall (ja jb : list Job) (job : Job) (w' : World),
        job_filters job = [] ->
        value (for_jobs simulate ja w') = Ok tt ->
        value (for_jobs simulate (ja ++ job :: jb) w') = Err IndexError
        /\ trace (for_jobs simulate (ja ++ job :: jb) w')
           = trace (for_jobs simulate ja w') ++ [EvLogInfo (path job)])
  /\ (forall (x : list Filter) (e : exn),
        first x = Err e <-> x = [] /\ e = IndexError).
Proof.
  intros Hs Hr Hf. split; [| split; [| split]].
  - destruct (find_jobs_looks Hs) as [_ Hv].
    exists (sorted path (discovered w rules)). split; [exact Hv |].
    assert (Hin : forall p, In p (candidates w rule) ->
                            In (job_of rule p) (sorted path (discovered w rules))).
    { intros p Hp.
      apply (Permutation_in _ (Permutation_sym (sorted_Permutation path _))).
      apply in_discovered. exists rule. simpl. repeat split; trivial.
      unfold accepts. now rewrite Hf. }
    split; [exact Hin |]. intros Hne.
    destruct (candidates w rule) as [| p ps] eqn:Ec; [congruence |].
    specialize (Hin p (or_introl eq_refl)).
    destruct (value (execute_rules rules simulate w)) as [[] | e] eqn:Ev;
      [exfalso | eauto].
    unfold execute_rules in Ev. apply bind_value_ok in Ev.
    destruct Ev as (jobs & Ej & Ev). rewrite Hv in Ej. injection Ej as <-.
    destruct (sorted path (discovered w rules)) as [| j js]; [destruct Hin |].
    apply bind_value_ok in Ev. destruct Ev as ([] & _ & Ev). simpl in Ev.
    change (value (for_jobs simulate (j :: js)
                     (world_after (find_jobs rules w))) = Ok tt) in Ev.
    apply for_jobs_ok_filters in Ev. rewrite Forall_forall in Ev.
    apply (Ev _ Hin). simpl. exact Hf.
  - intros job w'. rewrite execute_job_eq. split.
    + split.
      * now intros ->.
      * destruct (job_filters job) as [| f fs]; trivial. cbv zeta.
        destruct (snd (parse f (path job) w')); [| discriminate].
        destruct (resolve (fst (parse f (path job) w')) (path job));
          discriminate.
    + now intros ->.
  - intros ja jb job w' Ef Hv.
    destruct (for_jobs_reaches_empty simulate ja jb job w' Ef Hv)
      as (H1 & H2 & _).
    auto.
  - intros x e. destruct x; simpl; split.
    + intros E. injection E as <-. auto.
    + now intros [_ ->].
    + discriminate.
    + now intros [? _].
Qed.

End Facts.
End EngineFacts.

(** ** The engine on the sample world *)

Module Scenarios.

Import MemFS.

Example PosixPath_home :
  PosixPath "~/Downloads/./x//y" = ["~"; "Downloads"; "x"; "y"]%string.
Proof. reflexivity. Qed.

Example PosixPath_absolute : PosixPath "/usr/bin/" = ["/"; "usr"; "bin"]%string.
Proof. reflexivity. Qed.

Example PosixPath_two_slashes : PosixPath "//srv" = ["//"; "srv"]%string.
Proof. reflexivity. Qed.

Example PosixPath_three_slashes : PosixPath "///srv" = ["/"; "srv"]%string.
Proof. reflexivity. Qed.

Example fnmatch_hidden : name_matches star_dot_star ".bashrc" = true.
Proof. reflexivity. Qed.

Example fnmatch_no_dot : name_matches star_dot_star "Makefile" = false.
Proof. reflexivity. Qed.

(** The parts are compared, not the text: ["a/b"] is before ["a.b/c"]
    although ["."] is before ["/"]. *)
Example path_order_by_parts :
  path_ltb (PosixPath "a/b") (PosixPath "a.b/c") = true.
Proof. reflexivity. Qed.

Example candidates_of_text_rule :
  value (exhaust (all_pathes text_rule) world0)
  = Ok [a_txt; b_jpg; old_d].
Proof. reflexivity. Qed.

Example jobs_of_two_rules :
  match value (find_jobs [jpg_rule; text_rule] world0) with
  | Ok jobs => map (@path _ _) jobs
  | Err _ => []
  end = [a_txt; b_jpg].
Proof. reflexivity. Qed.

(** The end-to-end scenario of the specification: one job, for [a.txt];
    a simulated run leaves the files as they are. *)
Example simulated_run_leaves_files :
  world_after (execute_rules [text_rule] true world0) = world0
  /\ value (execute_rules [text_rule] true world0) = Ok tt.
Proof. split; reflexivity. Qed.

Example real_run_moves_and_deletes :
  kind_of (world_after (execute_rules [text_rule] false world0)) a_txt = None
  /\ value (execute_rules [text_rule] false world0) = Ok tt.
Proof. split; reflexivity. Qed.

(** A filter that raises ends the run during discovery: the filters after
    it are not asked, nothing is parsed or run, the world is untouched. *)
Example unreadable_file_ends_the_run :
  execute_rules [broken_rule; text_rule] false world0
  = {| world_after := world0;
       trace := [EvGlob "~/dl" world0;
                 EvMatches (Extension "txt") a_txt world0;
                 EvMatches Unreadable a_txt world0];
       value := Err (OtherError "OSError") |}.
Proof. reflexivity. Qed.

(** Where the real run raises, the simulated run goes on: the second
    deletion fails for real and is only announced when simulated. *)
Example simulated_run_goes_past_real_failure :
  run_actions (trace (execute_rules [twice_rule] false world0))
  = [Trash; Trash]
  /\ run_actions (trace (execute_rules [twice_rule] true world0))
     = [Trash; Trash; Echo].
Proof. split; reflexivity. Qed.

Lemma scannable_world0 (rules : list (Rule World Attrs)) :
  Forall (fun rule => In rule [text_rule; jpg_rule; echo_rule; any_rule;
                               twice_rule; idle_rule]) rules ->
  scannable world0 rules.
Proof.
  intros H rule Hr. rewrite Forall_forall in H. specialize (H _ Hr).
  simpl in H.
  repeat (destruct H as [<- | H]);
    try contradiction;
    (split;
     [ intros folder Hf; simpl in Hf;
       repeat (destruct Hf as [<- | Hf]); try contradiction;
       eexists; reflexivity
     | intros f Hf; simpl in Hf;
       repeat (destruct Hf as [<- | Hf]); try contradiction;
       intros p; eexists; reflexivity ]).
Defined.

Lemma C1_witness :
  scannable world0 [text_rule; jpg_rule]
  /\ exists jobs,
       value (find_jobs [text_rule; jpg_rule] world0) = Ok jobs
       /\ In (job_of text_rule a_txt) jobs
       /\ ~ In (job_of jpg_rule a_txt) jobs
       /\ (forall job, In job jobs ->
             matched (trace (find_jobs [text_rule; jpg_rule] world0)) job)
       /\ value (find_jobs [{| folders := folders text_rule;
                               filters := [Never];
                               actions := actions text_rule |}; jpg_rule]
                   world0)
          = Ok (sorted path (discovered world0 [jpg_rule])).
Proof.
  assert (Hs : scannable world0 [text_rule; jpg_rule]).
  { apply scannable_world0.
    repeat apply Forall_cons; try apply Forall_nil; simpl; auto 10. }
  split; [exact Hs |].
  destruct (@EngineFacts.C1_job_iff_all_filters_match World Attrs os world0
              [text_rule; jpg_rule]) as [Hany Hlook].
  destruct (Hlook Hs) as (jobs & Hv & Hiff & _ & Hnever).
  exists jobs. split; [exact Hv |]. split; [| split; [| split]].
  - apply Hiff; [simpl; auto | vm_compute; auto |].
    intros f [<- | []]. reflexivity.
  - intros Hin.
    assert (Hr : In jpg_rule [text_rule; jpg_rule]) by (simpl; auto).
    assert (Hc : In a_txt (candidates world0 jpg_rule)) by (vm_compute; auto).
    pose proof (proj1 (Hiff jpg_rule a_txt Hr Hc) Hin
                  (Extension "jpg") (or_introl eq_refl)) as H.
    discriminate.
  - intros job Hin. now apply (Hany jobs job Hv Hin).
  - exact (Hnever [] text_rule [jpg_rule] [] (Extension "txt") [] Never
             eq_refl eq_refl (fun p => eq_refl)).
Defined.

Lemma C2_witness :
  exists runs,
    trace (execute_job true (job_of text_rule a_txt) world0)
    = EvLogInfo a_txt :: EvParse (Extension "txt") a_txt world0
      :: EvResolve a_txt world0 :: runs
    /\ chained a_txt runs
    /\ run_actions runs = [Move "/home/u/docs"; Echo; Trash]
    /\ ["/"; "home"; "u"; "docs"; "a.txt"]%string = final_path a_txt runs.
Proof.
  destruct (@EngineFacts.C2_path_chaining World Attrs os true
              (job_of text_rule a_txt) world0 world0 (Extension "txt")
              [("extension"%string, "txt"%string)] a_txt
              eq_refl eq_refl eq_refl)
    as (runs & Htr & _ & Hc & _ & Hfin).
  exists runs. split; [exact Htr |]. split; [exact Hc |].
  apply (Hfin ["/"; "home"; "u"; "docs"; "a.txt"]%string). reflexivity.
Defined.

Lemma C3_witness :
  exists jobs,
    value (find_jobs [jpg_rule; text_rule] world0) = Ok jobs
    /\ List.length jobs = 2
    /\ StronglySorted (key_le (@path World Attrs)) jobs
    /\ exists jobs0,
         value (find_jobs [text_rule; jpg_rule] world0) = Ok jobs0
         /\ map (@path World Attrs) jobs0 = map (@path World Attrs) jobs.
Proof.
  eexists. split; [reflexivity |]. split; [reflexivity |].
  destruct (@EngineFacts.C3_find_jobs_sorted_by_path World Attrs os
              [text_rule; jpg_rule] [jpg_rule; text_rule] world0 _
              (perm_swap _ _ _) eq_refl) as [Hsorted Hsame].
  split; [exact Hsorted |]. apply Hsame.
  apply scannable_world0.
  repeat apply Forall_cons; try apply Forall_nil; simpl; auto 10.
Defined.

Lemma C4_witness :
  filter (@is_parse World Attrs)
    (trace (execute_job false (job_of jpg_rule a_txt) world0))
  = [EvParse (Extension "jpg") a_txt world0]
  /\ run_bundles (trace (execute_job false (job_of text_rule a_txt) world0))
     = [(Move "/home/u/docs", txt_attrs); (Echo, txt_attrs);
        (Trash, txt_attrs)]
  /\ bundles_from_parse None
       (trace (execute_rules [text_rule; jpg_rule] false world0))
  /\ run_actions (trace (execute_rules [text_rule; jpg_rule] false world0))
     = [Move "/home/u/docs"; Echo; Trash; Echo].
Proof.
  destruct (@EngineFacts.C4_bundle_from_first_filter World Attrs os false)
    as [Hjob Hrun].
  split; [exact (proj1 (Hjob (job_of jpg_rule a_txt) world0)) |].
  split.
  - destruct (Hjob (job_of text_rule a_txt) world0) as (_ & _ & _ & Hall).
    destruct (Hall docs_a_txt eq_refl) as (f & attrs & Ef & Ea & ->).
    injection Ef as <-. injection Ea as <-. reflexivity.
  - destruct (Hrun [text_rule; jpg_rule] world0) as (Hb & _ & Hall).
    split; [exact Hb |].
    destruct (Hall [job_of text_rule a_txt; job_of jpg_rule b_jpg] eq_refl)
      as [_ ->]; reflexivity.
Defined.

Lemma C5_witness :
  is_ok (value (exhaust (all_pathes text_rule) world0)) = true
  /\ In old_d (dotted_children world0 "~/dl")
  /\ ~ In (old_d ++ ["deep.txt"%string]) (dotted_children world0 "~/dl").
Proof.
  destruct (@EngineFacts.C5_candidates_are_dotted_children World Attrs os
              text_rule world0) as (_ & _ & Hok & Hin).
  split; [| split].
  - apply Hok. intros folder [<- | []]. reflexivity.
  - apply Hin. exists downloads, ["a.txt"; "b.jpg"; "old.d"; "Makefile"]%string,
      "old.d"%string.
    repeat split; simpl; auto 10.
  - intros H. apply Hin in H.
    destruct H as (dir & names & name & Hd & _ & _ & _ & _ & E).
    vm_compute in Hd. injection Hd as <-.
    apply (f_equal (@List.length string)) in E.
    rewrite length_app in E. simpl in E. discriminate.
Defined.

(** The claim as the specification words it, with files only among the
    candidates, fails: a directory whose name has a dot is a candidate. *)
Lemma C5_counterexample :
  ~ (forall (rule : Rule World Attrs) (w : World) (batch : list Path),
       value (exhaust (all_pathes rule) w) = Ok batch ->
       forall p, In p batch -> is_dir w p <> Ok true).
Proof.
  intros H.
  specialize (H text_rule world0 _ eq_refl old_d).
  assert (Hin : In old_d [a_txt; b_jpg; old_d])
    by (simpl; auto).
  apply (H Hin). reflexivity.
Qed.

Example trace_of_real_run :
  trace (execute_rules [text_rule] false world0)
  = [EvGlob "~/dl" world0;
     EvMatches (Extension "txt") a_txt world0;
     EvMatches (Extension "txt") b_jpg world0;
     EvMatches (Extension "txt") old_d world0;
     EvLogDebug [job_of text_rule a_txt];
     EvLogInfo a_txt;
     EvParse (Extension "txt") a_txt world0;
     EvResolve a_txt world0;
     EvRun (Move "/home/u/docs") a_txt txt_attrs false world0;
     EvRun Echo docs_a_txt txt_attrs false (rename world0 a_txt docs_a_txt);
     EvRun Trash docs_a_txt txt_attrs false (rename world0 a_txt docs_a_txt)].
Proof. reflexivity. Qed.

Lemma C6_witness :
  run_flags (trace (execute_rules [text_rule] false world0))
  = [(Move "/home/u/docs", false); (Echo, false); (Trash, false)]
  /\ world_after (execute_rules [text_rule] false world0)
     = replay_runs world0 (trace (execute_rules [text_rule] false world0))
  /\ calls (trace (execute_rules [text_rule] false world0))
     = calls (trace (execute_rules [text_rule] true world0)).
Proof.
  destruct (@EngineFacts.C6_simulate_flows_and_engine_does_not_mutate
              World Attrs os [text_rule] false world0)
    as (_ & Hruns & _ & Hreplay & _ & _ & _ & Hsame).
  split; [| split].
  - destruct (Hruns [job_of text_rule a_txt] eq_refl) as [_ Hall].
    rewrite (Hall eq_refl). reflexivity.
  - apply Hreplay. rewrite trace_of_real_run.
    repeat (apply Forall_cons; [first [exact I | exact eq_refl] |]).
    apply Forall_nil.
  - apply Hsame; reflexivity.
Defined.

(** The claim as the specification words it, with the same calls in a
    simulated and in a real run, fails: the second deletion of [twice_rule]
    raises for real and ends the run, and is only announced when simulated,
    where the third action is run as well. *)
Lemma C6_counterexample :
  ~ (forall (rules : list (Rule World Attrs)) (w : World),
       calls (trace (execute_rules rules true w))
       = calls (trace (execute_rules rules false w))).
Proof.
  intros H. specialize (H [twice_rule] world0).
  apply (f_equal (@List.length (Call World Attrs))) in H.
  assert (E1 : List.length (calls (trace (execute_rules [twice_rule] true world0)))
               = 11) by reflexivity.
  assert (E2 : List.length (calls (trace (execute_rules [twice_rule] false world0)))
               = 10) by reflexivity.
  rewrite E1, E2 in H. discriminate.
Qed.

Lemma C7_witness :
  value (find_jobs [idle_rule] world0) = Ok []
  /\ value (execute_rules [idle_rule] false world0) = Ok tt
  /\ trace (execute_rules [idle_rule] false world0)
     = [EvPrint "Nothing to do."].
Proof.
  destruct (@EngineFacts.C7_nothing_to_do World Attrs os [idle_rule] false
              world0 eq_refl) as (Hv & Ht & _).
  split; [reflexivity |]. split; [exact Hv | exact Ht].
Defined.

Lemma C8_witness :
  scannable_on_candidates world0 [text_rule; jpg_rule; echo_rule]
  /\ exists ja jb jc,
       value (find_jobs [text_rule; jpg_rule; echo_rule] world0)
       = Ok (ja
             ++ {| path := a_txt;
                   job_filters := [Extension "txt"];
                   job_actions := [Move "/home/u/docs"; Echo; Trash] |}
             :: jb
             ++ {| path := a_txt;
                   job_filters := [Extension "txt"; Extension "txt"];
                   job_actions := [Echo] |}
             :: jc)
       /\ run_actions
            (trace (execute_rules [text_rule; jpg_rule; echo_rule] false world0))
          = flat_map (@job_actions World Attrs) ja
            ++ [Move "/home/u/docs"; Echo; Trash]
            ++ flat_map (@job_actions World Attrs) jb
            ++ [Echo]
            ++ flat_map (@job_actions World Attrs) jc.
Proof.
  assert (Hs : scannable_on_candidates world0
                 ([] ++ text_rule :: [jpg_rule] ++ echo_rule :: [])).
  { apply EngineFacts.scannable_on_its_candidates, scannable_world0.
    repeat apply Forall_cons; try apply Forall_nil; simpl; auto 10. }
  split; [exact Hs |].
  destruct (@EngineFacts.C8_same_path_two_rules World Attrs os world0
              [] [jpg_rule] [] text_rule echo_rule a_txt false Hs)
    as (jobs & ja & j1 & jb & j2 & jc & Hv & -> & (P1 & F1 & A1)
        & (P2 & F2 & A2) & _ & _ & _ & _ & Hruns & _).
  - simpl. auto.
  - simpl. auto.
  - destruct j1 as [p1 fs1 as1], j2 as [p2 fs2 as2].
    cbn [path job_filters job_actions] in P1, F1, A1, P2, F2, A2.
    subst p1 fs1 as1 p2 fs2 as2.
    exists ja, jb, jc. split; [exact Hv |].
    apply Hruns. reflexivity.
Defined.

Example trace_of_failing_run :
  trace (execute_rules [twice_rule] false world0)
  = [EvGlob "~/dl" world0;
     EvMatches (Extension "txt") a_txt world0;
     EvMatches (Extension "txt") b_jpg world0;
     EvMatches (Extension "txt") old_d world0;
     EvLogDebug [job_of twice_rule a_txt];
     EvLogInfo a_txt;
     EvParse (Extension "txt") a_txt world0;
     EvResolve a_txt world0;
     EvRun Trash a_txt txt_attrs false world0]
    ++ [EvRun Trash a_txt txt_attrs false (unlink world0 a_txt)].
Proof. reflexivity. Qed.

Lemma C9_witness :
  value (execute_rules [twice_rule] false world0)
  = Err (OtherError "FileNotFoundError")
  /\ world_after (execute_rules [twice_rule] false world0)
     = unlink world0 a_txt
  /\ run_actions (trace (execute_rules [twice_rule] false world0))
     = [Trash; Trash].
Proof.
  destruct (@EngineFacts.C9_exceptions_propagate World Attrs os
              [twice_rule] false world0 _ [] _
              (OtherError "FileNotFoundError")
              trace_of_failing_run eq_refl)
    as (_ & Hv & Hw).
  split; [exact Hv |]. split.
  - now destruct (Hw _ _ eq_refl) as [_ ->].
  - reflexivity.
Defined.

Lemma C10_witness :
  scannable world0 [any_rule]
  /\ exists jobs,
       value (find_jobs [any_rule] world0) = Ok jobs
       /\ In (job_of any_rule old_d) jobs
       /\ exists e, value (execute_rules [any_rule] true world0) = Err e.
Proof.
  assert (Hs : scannable world0 [any_rule]).
  { apply scannable_world0.
    repeat apply Forall_cons; try apply Forall_nil; simpl; auto 10. }
  split; [exact Hs |].
  destruct (@EngineFacts.C10_rule_without_filters World Attrs os world0
              [any_rule] any_rule true Hs (or_introl eq_refl) eq_refl)
    as ((jobs & Hv & Hin & Hfail) & _).
  exists jobs. split; [exact Hv |]. split.
  - apply Hin. vm_compute. auto.
  - apply Hfail. vm_compute. discriminate.
Defined.

End Scenarios.

(** ** More on the engine *)

Module EngineMore.

Import EngineFacts.

Section More.
Context {World Attrs : Type} {os : OS World}.

Local Abbreviation Filter := (Engine.Filter World Attrs).
Local Abbreviation Action := (Engine.Action World Attrs).
Local Abbreviation Rule := (Engine.Rule World Attrs).
Local Abbreviation Job := (Engine.Job World Attrs).
Local Abbreviation Event := (Engine.Event World Attrs).
Local Abbreviation M := (Engine.M World Attrs).

(** *** Discovery comes first *)

(** X1.  The trace of [execute_rules] is the trace of discovery followed by
    events none of which lists a folder or asks a filter whether a path
    matches: once the first attribute is parsed or the first action runs,
    no folder is listed and no filter is asked for a verdict any more. *)
Theorem discovery_precedes_execution (rules : list Rule) (simulate : bool)
  (w : World) :
  exists rest,
    trace (execute_rules rules simulate w) = trace (find_jobs rules w) ++ rest
    /\ Forall is_discovery (trace (find_jobs rules w))
    /\ Forall (fun ev => ~ is_discovery ev) rest.
Proof.
  unfold execute_rules. rewrite trace_bind. eexists.
  split; [reflexivity |]. split; [apply find_jobs_discovery |].
  destruct (value (find_jobs rules w)) as [[| job jobs] | e].
  - repeat constructor. simpl. tauto.
  - apply emits_bind.
    + apply emits_emit. simpl. tauto.
    + intros _. apply emits_for_jobs; simpl; tauto.
  - constructor.
Qed.

(** *** The conjunction stops at the first filter that does not match *)

Lemma all_match_cons (f : Filter) (fs : list Filter) (p : Path) (w : World) :
  all_match (f :: fs) p w =
  match snd (matches f p w) with
  | Err e =>
      {| world_after := fst (matches f p w); trace := [EvMatches f p w];
         value := Err e |}
  | Ok false =>
      {| world_after := fst (matches f p w); trace := [EvMatches f p w];
         value := Ok false |}
  | Ok true =>
      let o := all_match fs p (fst (matches f p w)) in
      {| world_after := world_after o; trace := EvMatches f p w :: trace o;
         value := value o |}
  end.
Proof.
  simpl. unfold bind, call. simpl.
  destruct (snd (matches f p w)) as [[|] | e]; trivial.
Qed.

(** X2.  [all(f.matches(path) for f in fs)] asks the filters from left to
    right.  When it is true every filter was asked, once, and every one
    returned true; when it is false, or raises, the filters were asked up to
    the first one that returned false, or raised, every one before it
    returned true, and none after it was asked. *)
Theorem all_stops_at_first_mismatch (fs : list Filter) (p : Path) (w : World) :
  (value (all_match fs p w) = Ok true ->
   calls (trace (all_match fs p w)) = map (fun f => CMatches f p) fs
   /\ Forall said_yes (trace (all_match fs p w)))
  /\ (forall r,
        value (all_match fs p w) = r -> r <> Ok true ->
        exists fs1 f fs2 tr w',
          fs = fs1 ++ f :: fs2
          /\ trace (all_match fs p w) = tr ++ [EvMatches f p w']
          /\ calls tr = map (fun g => CMatches g p) fs1
          /\ Forall said_yes tr
          /\ snd (matches f p w') = r).
Proof.
  revert w. induction fs as [| f0 fs IH]; intros w.
  - split; [intros _; split; [reflexivity | constructor] |].
    intros r <- H. now destruct H.
  - rewrite all_match_cons.
    destruct (snd (matches f0 p w)) as [[|] | e] eqn:E; cbv zeta.
    + destruct (IH (fst (matches f0 p w))) as [IHt IHf]. split.
      * intros H. cbn [trace value] in *. destruct (IHt H) as [Ec Ey].
        split; [unfold calls in *; simpl; now rewrite Ec |].
        constructor; trivial.
      * intros r H Hr. cbn [trace value] in *.
        destruct (IHf r H Hr)
          as (fs1 & f & fs2 & tr & w' & -> & Et & Ec & Ey & Ef).
        exists (f0 :: fs1), f, fs2, (EvMatches f0 p w :: tr), w'.
        rewrite Et. unfold calls in *. simpl. rewrite Ec.
        repeat split; trivial; constructor; trivial.
    + split; [discriminate |]. intros r <- _.
      exists [], f0, fs, [], w. repeat split; trivial; constructor.
    + split; [discriminate |]. intros r <- _.
      exists [], f0, fs, [], w. repeat split; trivial; constructor.
Qed.

(** *** Where the paths of the jobs come from *)

Lemma yielded_app_l (rules : list Rule) (tr tr' : list Event) (job : Job) :
  yielded rules tr job -> yielded rules (tr ++ tr') job.
Proof.
  intros (rule & folder & w & Hr & Hf & Ef & Ea & Hin & Hp).
  exists rule, folder, w. repeat split; trivial. apply in_or_app. now left.
Qed.

Lemma for_paths_yielded (rules : list Rule) (rule : Rule) (tr : list Event)
  (batch : list Path) (result result' : list Job) (w : World) :
  (forall p, In p batch -> yielded rules tr (job_of rule p)) ->
  Forall (yielded rules tr) result ->
  value (for_paths rule batch result w) = Ok result' ->
  Forall (yielded rules tr) result'.
Proof.
  revert result w.
  induction batch as [| p batch IH]; intros result w Hb Hr H.
  - simpl in H. now injection H as <-.
  - simpl in H. apply bind_value_ok in H. destruct H as (ok & _ & H).
    eapply IH; [| | exact H].
    + intros q Hq. apply Hb. now right.
    + destruct ok; trivial.
      apply Forall_app. split; trivial.
      constructor; [| constructor]. apply Hb. now left.
Qed.

Lemma for_batches_yielded (rules : list Rule) (rule : Rule)
  (fds : list string) (tr0 : list Event) (result result' : list Job)
  (w : World) :
  In rule rules -> incl fds (folders rule) ->
  let gen := map (fun folder => ask (EvGlob (Attrs := Attrs) folder)
                                  (glob_folder folder)) fds in
  Forall (yielded rules tr0) result ->
  value (for_batches rule gen result w) = Ok result' ->
  Forall (yielded rules (tr0 ++ trace (for_batches rule gen result w)))
    result'.
Proof.
  intros Hin. cbv zeta. revert tr0 result w.
  induction fds as [| folder fds IH]; intros tr0 result w Hi Hr H.
  - simpl in *. injection H as <-. now rewrite app_nil_r.
  - cbn [map for_batches] in *. rewrite trace_bind.
    apply bind_value_ok in H. destruct H as (batch & Hb & H).
    rewrite Hb, trace_bind.
    apply bind_value_ok in H. destruct H as (result1 & H1 & H).
    rewrite H1, !app_assoc.
    apply IH; trivial; [intros f Hf; apply Hi; now right |].
    eapply Forall_impl; [intros job Hj; apply yielded_app_l; exact Hj |].
    simpl in Hb, H1 |- *.
    eapply for_paths_yielded; [| | exact H1].
    + intros q Hq. exists rule, folder, w. repeat split; trivial.
      * apply Hi. now left.
      * apply in_or_app. right. now left.
      * unfold listed. now rewrite Hb.
    + eapply Forall_impl; [| exact Hr]. intros job. apply yielded_app_l.
Qed.

Lemma for_rules_yielded (rules rs : list Rule) (tr0 : list Event)
  (result result' : list Job) (w : World) :
  incl rs rules ->
  Forall (yielded rules tr0) result ->
  value (for_rules rs result w) = Ok result' ->
  Forall (yielded rules (tr0 ++ trace (for_rules rs result w))) result'.
Proof.
  revert tr0 result w.
  induction rs as [| rule rs IH]; intros tr0 result w Hi Hr H.
  - simpl in *. injection H as <-. now rewrite app_nil_r.
  - simpl for_rules in *. rewrite trace_bind.
    apply bind_value_ok in H. destruct H as (result1 & H1 & H).
    rewrite H1, app_assoc.
    apply IH; trivial; [intros r Hr'; apply Hi; now right |].
    apply for_batches_yielded; trivial; [apply Hi; now left | apply incl_refl].
Qed.

(** X3.  Whatever the filters say, every job that [find_jobs] returns has
    the filters and actions of one of the rules, and its path is a direct
    child, with a dot in its name, of a declared folder of that rule: the
    folder was listed during discovery, was a directory then, and the name
    was in its listing.  An entry without a dot in its name (a [Makefile],
    a [README]) is never organized. *)
Theorem jobs_have_dotted_names (rules : list Rule) (w : World)
  (jobs : list Job) (job : Job) :
  value (find_jobs rules w) = Ok jobs ->
  In job jobs ->
  exists rule folder w' dir names name,
    In rule rules
    /\ In folder (folders rule)
    /\ job_filters job = filters rule
    /\ job_actions job = actions rule
    /\ In (EvGlob folder w') (trace (find_jobs rules w))
    /\ expanduser w' (PosixPath folder) = Ok dir
    /\ is_dir w' dir = Ok true
    /\ listdir w' dir = Ok names
    /\ In name names
    /\ In "."%char (list_ascii_of_string name)
    /\ path job = dir ++ [name].
Proof.
  intros H Hin. unfold find_jobs in *. rewrite trace_bind.
  apply bind_value_ok in H. destruct H as (result & Hr & H).
  rewrite Hr. simpl in H |- *. injection H as <-. rewrite app_nil_r.
  pose proof (@for_rules_yielded rules rules [] [] result w
                (incl_refl _) (Forall_nil _) Hr) as Hy.
  simpl in Hy. rewrite Forall_forall in Hy.
  assert (Hin' : In job result).
  { eapply Permutation_in; [apply sorted_Permutation | exact Hin]. }
  destruct (Hy _ Hin') as (rule & folder & w' & Hrule & Hf & Ef & Ea & Hg & Hp).
  rewrite listed_dotted in Hp. apply in_dotted_children in Hp.
  destruct Hp as (dir & names & name & He & Hd & Hl & Hn & Hdot & Ep).
  exists rule, folder, w', dir, names, name. repeat split; trivial.
Qed.

(** *** Folders that cannot be listed *)

Lemma glob_folder_passed_over (w : World) (folder : string) :
  passed_over w folder -> glob_folder folder w = Ok [].
Proof.
  intros (dir & He & H). unfold glob_folder, glob. rewrite He.
  destruct H as [-> | [-> Hl]]; trivial. now rewrite Hl.
Qed.

Lemma for_batches_passed_over (rule : Rule) (fds : list string)
  (result : list Job) (w : World) :
  (forall folder, In folder fds -> passed_over w folder) ->
  for_batches rule
    (map (fun folder => ask (EvGlob (Attrs := Attrs) folder)
                          (glob_folder folder)) fds) result w
  = {| world_after := w; trace := map (fun folder => EvGlob folder w) fds;
       value := Ok result |}.
Proof.
  intros H. induction fds as [| folder fds IH]; trivial.
  cbn [map for_batches]. unfold bind, ask. cbn [value world_after trace].
  rewrite (glob_folder_passed_over (H folder (or_introl eq_refl))).
  cbn [for_paths ret value world_after trace].
  unfold ask in IH. rewrite IH; trivial.
  intros f Hf. apply H. now right.
Qed.

Lemma for_rules_passed_over (rules : list Rule) (result : list Job) (w : World) :
  (forall rule folder, In rule rules -> In folder (folders rule) ->
     passed_over w folder) ->
  for_rules rules result w
  = {| world_after := w;
       trace := map (fun folder => EvGlob folder w) (flat_map folders rules);
       value := Ok result |}.
Proof.
  intros H. induction rules as [| rule rules IH]; trivial.
  cbn [for_rules flat_map]. unfold bind, all_pathes.
  rewrite for_batches_passed_over by (intros f Hf; eapply H; [now left | exact Hf]).
  simpl. rewrite IH by (intros r f Hr Hf; eapply H; [right; exact Hr | exact Hf]).
  simpl. now rewrite map_app.
Qed.

(** X4.  A declared folder for which [is_dir] returns false (it does not
    exist or is not a directory), or which is a directory whose listing
    raises [PermissionError], is passed over without an error.  When that
    is so for every folder of every rule, [execute_rules] lists the
    folders, asks no filter, prints the notice and returns normally, with
    the world unchanged. *)
Theorem unlistable_folders_give_nothing_to_do (rules : list Rule)
  (simulate : bool) (w : World) :
  (forall rule folder, In rule rules -> In folder (folders rule) ->
     passed_over w folder) ->
  execute_rules rules simulate w
  = {| world_after := w;
       trace := map (fun folder => EvGlob folder w) (flat_map folders rules)
                ++ [EvPrint "Nothing to do."];
       value := Ok tt |}.
Proof.
  intros H. unfold execute_rules, find_jobs, bind.
  rewrite (@for_rules_passed_over rules [] w H). simpl.
  now rewrite app_nil_r.
Qed.

Lemma expanduser_fails_iff (w : World) (p : Path) (e : exn) :
  expanduser w p = Err e <->
  exists username rest,
    p = String "~" username :: rest /\ gethomedir w username = Err e.
Proof.
  unfold expanduser. destruct p as [| [| c username] rest].
  - split; [discriminate | intros (u & r & E & _); discriminate].
  - split; [discriminate | intros (u & r & E & _); discriminate].
  - destruct (Ascii.eqb c "~") eqn:Ec.
    + apply Ascii.eqb_eq in Ec. subst c.
      destruct (gethomedir w username) as [home | e'] eqn:Eh.
      * split; [discriminate |].
        intros (u & r & E & Eh'). injection E as <- <-. congruence.
      * split.
        { intros E. injection E as <-. eauto. }
        { intros (u & r & E & Eh'). injection E as <- <-. congruence. }
    + split; [discriminate |].
      intros (u & r & E & _). injection E as -> _ _.
      now rewrite Ascii.eqb_refl in Ec.
Qed.

(** X5.  Listing a declared folder raises in three cases only: the home
    directory of its leading [~] or [~user] part cannot be determined;
    [is_dir] raises on the expanded folder; or the folder is a directory
    whose listing raises something other than [PermissionError].  The
    exception is that of the failing step.  In every other case the listing
    returns. *)
Theorem glob_folder_fails_iff (w : World) (folder : string) (e : exn) :
  glob_folder folder w = Err e <->
  (exists username rest,
      PosixPath folder = String "~" username :: rest
      /\ gethomedir w username = Err e)
  \/ (exists dir,
        expanduser w (PosixPath folder) = Ok dir
        /\ is_dir w dir = Err e)
  \/ (exists dir,
        expanduser w (PosixPath folder) = Ok dir
        /\ is_dir w dir = Ok true
        /\ listdir w dir = Err e
        /\ e <> PermissionError).
Proof.
  unfold glob_folder. split.
  - destruct (expanduser w (PosixPath folder)) as [dir | e'] eqn:Ex.
    + unfold glob. destruct (is_dir w dir) as [[|] | e'] eqn:Ed.
      * destruct (listdir w dir) as [names | e'] eqn:El; [discriminate |].
        intros E. right. right. exists dir.
        assert (He : e' = e /\ e <> PermissionError).
        { destruct e'; try discriminate; injection E as <-;
            split; trivial; discriminate. }
        destruct He as [-> He]. auto.
      * discriminate.
      * intros E. injection E as <-. right. left. eauto.
    + intros E. injection E as <-. left. now apply expanduser_fails_iff.
  - intros [H | [(dir & Ex & Ed) | (dir & Ex & Ed & El & Hne)]].
    + apply expanduser_fails_iff in H. now rewrite H.
    + rewrite Ex. unfold glob. now rewrite Ed.
    + rewrite Ex. unfold glob. rewrite Ed, El. destruct e; trivial; congruence.
Qed.

(** *** A dry run *)

Lemma threads_still (w w' : World) (tr : list Event) :
  threads w tr w' -> Forall still tr -> w' = w.
Proof.
  intros Ht Hs. revert w Ht.
  induction Hs as [| ev tr Hev Hs IH]; intros w Ht; simpl in Ht.
  - now symmetry.
  - destruct (effect ev) as [[w0 w1] |] eqn:E; [| now apply IH].
    destruct Ht as [-> Ht]. rewrite (Hev _ _ E) in Ht. now apply IH.
Qed.

Lemma all_match_Forall (P : Event -> Prop) (fs : list Filter) (p : Path)
  (w : World) :
  (forall f w', In f fs -> P (EvMatches f p w')) ->
  Forall P (trace (all_match fs p w)).
Proof.
  revert w. induction fs as [| f fs IH]; intros w H; [constructor |].
  rewrite all_match_cons.
  assert (Hf : P (EvMatches f p w)) by (apply H; now left).
  destruct (snd (matches f p w)) as [[|] | e]; cbv zeta; simpl;
    constructor; trivial.
  apply IH. intros g w' Hg. apply H. now right.
Qed.

Lemma for_paths_Forall (P : Event -> Prop) (rule : Rule) (batch : list Path)
  (result : list Job) (w : World) :
  (forall f p w', In f (filters rule) -> P (EvMatches f p w')) ->
  Forall P (trace (for_paths rule batch result w)).
Proof.
  intros H. revert result w.
  induction batch as [| p batch IH]; intros result w; [constructor |].
  simpl. apply Forall_trace_bind.
  - apply all_match_Forall. intros; now apply H.
  - intros ok w'. apply IH.
Qed.

Lemma for_batches_Forall (P : Event -> Prop) (rule : Rule)
  (gen : Generator World Attrs Path) (result : list Job) (w : World) :
  (forall f p w', In f (filters rule) -> P (EvMatches f p w')) ->
  Forall (emits P) gen ->
  Forall P (trace (for_batches rule gen result w)).
Proof.
  intros H Hgen. revert result w.
  induction Hgen as [| step gen Hs Hgen IH]; intros result w; [constructor |].
  simpl. apply Forall_trace_bind; [apply Hs |].
  intros batch w'. apply Forall_trace_bind; [now apply for_paths_Forall |].
  intros result' w''. apply IH.
Qed.

Lemma for_rules_Forall (P : Event -> Prop) (rules : list Rule)
  (result : list Job) (w : World) :
  (forall rule f p w', In rule rules -> In f (filters rule) ->
     P (EvMatches f p w')) ->
  (forall folder w', P (EvGlob folder w')) ->
  Forall P (trace (for_rules rules result w)).
Proof.
  intros Hm Hg. revert result w.
  induction rules as [| rule rules IH]; intros result w; [constructor |].
  simpl. apply Forall_trace_bind.
  - apply for_batches_Forall.
    + intros f p w'. apply Hm. now left.
    + now apply emits_all_pathes.
  - intros result' w'. apply IH. intros r f p w'' Hr. apply Hm. now right.
Qed.

Lemma for_actions_Forall (P : Event -> Prop) (acts : list Action)
  (attrs : Attrs) (simulate : bool) (current_path : Path) (w : World) :
  (forall a p w', In a acts -> P (EvRun a p attrs simulate w')) ->
  Forall P (trace (for_actions acts attrs simulate current_path w)).
Proof.
  revert current_path w.
  induction acts as [| a acts IH]; intros cp w H; [constructor |].
  rewrite for_actions_cons. cbv zeta.
  assert (Ha : P (EvRun a cp attrs simulate w)) by (apply H; now left).
  destruct (snd (run a cp attrs simulate w)); simpl; constructor; trivial.
  apply IH. intros b p w' Hb. apply H. now right.
Qed.

Lemma execute_job_Forall (P : Event -> Prop) (simulate : bool) (job : Job)
  (w : World) :
  (forall p, P (EvLogInfo p)) ->
  (forall p w', P (EvResolve p w')) ->
  (forall f p w', In f (job_filters job) -> P (EvParse f p w')) ->
  (forall a p attrs w', In a (job_actions job) ->
     P (EvRun a p attrs simulate w')) ->
  Forall P (trace (execute_job simulate job w)).
Proof.
  intros Hl Hr Hp Ha. rewrite execute_job_eq.
  destruct (job_filters job) as [| f fs]; [repeat constructor; trivial |].
  assert (Hf : P (EvParse f (path job) w)) by (apply Hp; now left).
  cbv zeta. destruct (snd (parse f (path job) w)) as [attrs | e].
  - destruct (resolve (fst (parse f (path job) w)) (path job));
      simpl; repeat (constructor; trivial).
    apply for_actions_Forall. intros; now apply Ha.
  - simpl. repeat (constructor; trivial).
Qed.

Lemma for_jobs_Forall (P : Event -> Prop) (simulate : bool) (jobs : list Job)
  (w : World) :
  (forall p, P (EvLogInfo p)) ->
  (forall p w', P (EvResolve p w')) ->
  (forall job f p w', In job jobs -> In f (job_filters job) ->
     P (EvParse f p w')) ->
  (forall job a p attrs w', In job jobs -> In a (job_actions job) ->
     P (EvRun a p attrs simulate w')) ->
  Forall P (trace (for_jobs simulate jobs w)).
Proof.
  intros Hl Hr. revert w.
  induction jobs as [| job jobs IH]; intros w Hp Ha; [constructor |].
  simpl. apply Forall_trace_bind.
  - apply execute_job_Forall; trivial.
    + intros f p w'. apply Hp. now left.
    + intros a p attrs w'. apply Ha. now left.
  - intros _ w'. apply IH.
    + intros j f p w'' Hj. apply Hp. now right.
    + intros j a p attrs w'' Hj. apply Ha. now right.
Qed.

(** X6.  When the filters of the rules never change the world and their
    actions do not change it under [simulate=True], [execute_rules] with
    [simulate=True] leaves the world exactly as it was, whether it returns
    or raises: the engine adds no change of its own to a dry run. *)
Theorem dry_run_leaves_the_world (rules : list Rule) (w : World) :
  honours_dry_run rules ->
  world_after (execute_rules rules true w) = w.
Proof.
  intros H. destruct (sound_execute_rules rules true w) as [Ht _].
  apply (@threads_still w _ _ Ht). unfold execute_rules.
  rewrite trace_bind. apply Forall_app. split.
  - unfold find_jobs. apply Forall_trace_bind; [| intros; constructor].
    apply for_rules_Forall.
    + intros rule f p w' Hr Hf w0 w1 E. simpl in E. injection E as <- <-.
      now apply (H rule Hr).
    + intros folder w' w0 w1 E. simpl in E. now injection E as <- <-.
  - destruct (value (find_jobs rules w)) as [jobs | e] eqn:Ev; [| constructor].
    pose proof (@find_jobs_matched _ _ _ rules w jobs Ev) as Hj.
    rewrite Forall_forall in Hj.
    destruct jobs as [| job jobs]; [repeat constructor; discriminate |].
    apply Forall_trace_bind; [repeat constructor; discriminate |].
    intros _ w'. apply for_jobs_Forall.
    + discriminate.
    + intros p w'' w0 w1 E. simpl in E. now injection E as <- <-.
    + intros j f p w'' Hin Hf w0 w1 E. simpl in E. injection E as <- <-.
      destruct (Hj _ Hin) as [(rule & Hr & Ef & _) _].
      rewrite Ef in Hf. now apply (H rule Hr).
    + intros j a p attrs w'' Hin Ha w0 w1 E. simpl in E. injection E as <- <-.
      destruct (Hj _ Hin) as [(rule & Hr & _ & Ea) _].
      rewrite Ea in Ha. now apply (H rule Hr).
Qed.

(** *** The log *)

Lemma logged_app (tr1 tr2 : list Event) :
  logged (tr1 ++ tr2) = logged tr1 ++ logged tr2.
Proof. apply flat_map_app. Qed.

Lemma logged_none (tr : list Event) :
  Forall (fun ev => forall p, ev <> EvLogInfo p) tr -> logged tr = [].
Proof.
  induction 1 as [| ev tr Hev Htr IH]; trivial.
  unfold logged in *. simpl. rewrite IH.
  destruct ev; trivial. now destruct (Hev p).
Qed.

Lemma logged_execute_job (simulate : bool) (job : Job) (w : World) :
  logged (trace (execute_job simulate job w)) = [path job].
Proof.
  rewrite execute_job_eq. destruct (job_filters job) as [| f fs]; trivial.
  cbv zeta. destruct (snd (parse f (path job) w)) as [attrs | e]; trivial.
  destruct (resolve (fst (parse f (path job) w)) (path job)); trivial.
  cbn [trace]. unfold logged. cbn [flat_map app]. f_equal.
  apply logged_none. apply for_actions_Forall. discriminate.
Qed.

Lemma logged_for_jobs (simulate : bool) (jobs : list Job) (w : World) :
  prefix (logged (trace (for_jobs simulate jobs w))) (map path jobs)
  /\ (value (for_jobs simulate jobs w) = Ok tt ->
      logged (trace (for_jobs simulate jobs w)) = map path jobs).
Proof.
  revert w. induction jobs as [| job jobs IH]; intros w.
  - split; [apply prefix_refl | trivial].
  - simpl for_jobs. rewrite trace_bind, logged_app, logged_execute_job.
    destruct (value (execute_job simulate job w)) as [final | e] eqn:Ej.
    + destruct (bind_ok (execute_job simulate job)
                  (fun _ => for_jobs simulate jobs) w Ej) as (_ & _ & ->).
      destruct (IH (world_after (execute_job simulate job w))) as [Hp He].
      split; [apply (prefix_app [path job]); exact Hp |].
      intros H. cbn [map app]. f_equal. exact (He H).
    + destruct (bind_err (execute_job simulate job)
                  (fun _ => for_jobs simulate jobs) w Ej) as (_ & _ & ->).
      split; [| discriminate]. rewrite app_nil_r.
      apply (prefix_app_r [path job]).
Qed.

Lemma StronglySorted_prefix {A} (R : A -> A -> Prop) (l1 l2 : list A) :
  prefix l1 l2 -> StronglySorted R l2 -> StronglySorted R l1.
Proof.
  intros [l3 ->]. induction l1 as [| x l1 IH]; intros H; [constructor |].
  simpl in H. inversion H as [| ? ? Hs Hx]; subst.
  constructor; [now apply IH |].
  apply Forall_app in Hx. tauto.
Qed.

(** X7.  One [File ...] line is logged for every job that is started, the
    job's own path, in the order of the jobs: the logged paths are the
    first paths of the list [find_jobs] returned, hence sorted, and all of
    them when [execute_rules] returns. *)
Theorem log_lines_follow_the_jobs (rules : list Rule) (simulate : bool)
  (w : World) (jobs : list Job) :
  value (find_jobs rules w) = Ok jobs ->
  prefix (logged (trace (execute_rules rules simulate w))) (map path jobs)
  /\ StronglySorted path_le (logged (trace (execute_rules rules simulate w)))
  /\ (value (execute_rules rules simulate w) = Ok tt ->
      logged (trace (execute_rules rules simulate w)) = map path jobs).
Proof.
  intros Hv.
  assert (Hd : logged (trace (find_jobs rules w)) = []).
  { apply logged_none. eapply Forall_impl; [| apply find_jobs_discovery].
    intros ev Hev p ->. exact Hev. }
  assert (E : logged (trace (execute_rules rules simulate w))
              = logged (trace (for_jobs simulate jobs
                                 (world_after (find_jobs rules w))))
              /\ value (execute_rules rules simulate w)
                 = value (for_jobs simulate jobs
                            (world_after (find_jobs rules w)))).
  { unfold execute_rules. rewrite trace_bind, logged_app, Hd. unfold bind at 2.
    rewrite Hv. destruct jobs as [| job jobs]; [split; reflexivity |].
    cbn [value]. rewrite trace_bind. split; reflexivity. }
  destruct E as [-> ->].
  destruct (logged_for_jobs simulate jobs (world_after (find_jobs rules w)))
    as [Hp He].
  split; [exact Hp |]. split; [| exact He].
  apply (@StronglySorted_prefix _ _ _ _ Hp).
  apply sorted_map_key.
  destruct (@find_jobs_sorted_of _ _ _ rules w jobs Hv) as (r & _ & ->).
  apply sorted_StronglySorted.
Qed.

(** *** The notice *)

(** X12.  [execute_rules] prints exactly when discovery returned no job:
    the only thing it ever prints is the notice, and the notice is in its
    trace if and only if [find_jobs] returned the empty list. *)
Theorem notice_iff_no_jobs (rules : list Rule) (simulate : bool) (w : World) :
  (forall s, In (EvPrint s) (trace (execute_rules rules simulate w)) ->
             s = "Nothing to do."%string)
  /\ (In (EvPrint "Nothing to do.") (trace (execute_rules rules simulate w))
      <-> value (find_jobs rules w) = Ok []).
Proof.
  assert (Hd : forall s, ~ In (EvPrint s) (trace (find_jobs rules w))).
  { intros s Hin. pose proof (find_jobs_discovery rules w) as H.
    rewrite Forall_forall in H. exact (H _ Hin). }
  assert (Hj : forall s job jobs,
             value (find_jobs rules w) = Ok (job :: jobs) ->
             ~ In (EvPrint s) (trace (execute_rules rules simulate w))).
  { intros s job jobs Hv Hin.
    apply (@plan_has_no_print _ _ _ w rules job jobs s Hv).
    destruct (follows_execute_rules rules simulate w) as [[rest ->] _].
    apply in_or_app. left. unfold calls.
    change (CPrint s)
      with (call_of (EvPrint (World := World) (Attrs := Attrs) s)).
    now apply in_map. }
  destruct (value (find_jobs rules w)) as [[| job jobs] | e] eqn:Ev.
  - assert (Et : trace (execute_rules rules simulate w)
                 = trace (find_jobs rules w) ++ [EvPrint "Nothing to do."]).
    { unfold execute_rules. rewrite trace_bind, Ev. reflexivity. }
    rewrite Et. split.
    + intros s Hin. apply in_app_or in Hin.
      destruct Hin as [Hin | [Hin | []]]; [now destruct (Hd s) |].
      now injection Hin as <-.
    + split; trivial. intros _. apply in_or_app. right. now left.
  - split.
    + intros s Hin. now destruct (Hj s job jobs eq_refl).
    + split; [| discriminate]. intros Hin.
      now destruct (Hj _ job jobs eq_refl Hin).
  - assert (Et : trace (execute_rules rules simulate w)
                 = trace (find_jobs rules w)).
    { unfold execute_rules. rewrite trace_bind, Ev. apply app_nil_r. }
    rewrite Et. split.
    + intros s Hin. now destruct (Hd s).
    + split; [| discriminate]. intros Hin. now destruct (Hd _ Hin).
Qed.

End More.
End EngineMore.

(** ** The listing *)

Module ListingFacts.

Import Listing.

Lemma length_append (a b : string) :
  String.length (a ++ b) = String.length a + String.length b.
Proof. induction a as [| c a IH]; simpl; auto. Qed.

Lemma length_repeat_string (s : string) (n : nat) :
  String.length (repeat_string s n) = n * String.length s.
Proof.
  induction n as [| n IH]; simpl; trivial.
  now rewrite length_append, IH.
Qed.

Lemma len_str_mul (s : string) (n : Z) :
  len (str_mul s n) = (Z.max 0 n * len s)%Z.
Proof.
  unfold len, str_mul. rewrite length_repeat_string. lia.
Qed.

Lemma len_append (a b : string) : len (a ++ b) = (len a + len b)%Z.
Proof. unfold len. rewrite length_append. lia. Qed.

(** X8.  A heading is three printed lines.  With a one-character rule
    character the rule is [width] characters long, and when title and
    subtitle leave room for the two separating spaces the title line is
    exactly as long, the subtitle ending at the right margin.  When they do
    not, the line is the title, two spaces and the subtitle: nothing is cut
    and the line runs past the rule. *)
Theorem heading_lines (title subtitle char : string) (width : Z) :
  String.length char = 1 ->
  (0 <= width)%Z ->
  exists rule line,
    heading title subtitle char width = [rule; line; EmptyString]
    /\ len rule = width
    /\ ((len title + len subtitle + 2 <= width)%Z -> len line = width)
    /\ ((width < len title + len subtitle + 2)%Z ->
        line = (title ++ "  " ++ subtitle)%string
        /\ len line = (len title + len subtitle + 2)%Z).
Proof.
  intros Hc Hw. unfold heading. do 2 eexists.
  split; [reflexivity |]. split; [| split].
  - rewrite len_str_mul. unfold len. rewrite Hc. lia.
  - intros Hfit. rewrite !len_append, len_str_mul.
    change (len " ") with 1%Z. lia.
  - intros Hover.
    assert (E : str_mul " " (width - 2 - len title - len subtitle)
                = EmptyString).
    { unfold str_mul.
      replace (Z.to_nat (width - 2 - len title - len subtitle)) with 0 by lia.
      reflexivity. }
    rewrite E. split; [reflexivity |].
    rewrite !len_append. change (len " ") with 1%Z.
    change (len EmptyString) with 0%Z. lia.
Qed.

Section ListingFacts.
Variable indent : string -> string -> string.

Lemma for_classes_documented (kind : string)
  (classes : list (string * option string)) :
  Forall documented classes ->
  for_classes indent kind classes
  = (flat_map (block indent kind) classes, Ok tt).
Proof.
  induction 1 as [| [name doc] classes Hd Hcs IH]; trivial.
  destruct doc as [text |]; [| now destruct Hd].
  cbn [for_classes content flat_map]. rewrite IH.
  unfold block at 2. cbn [fst snd]. now rewrite <- app_assoc.
Qed.

Lemma for_classes_undocumented (kind name : string)
  (pre post : list (string * option string)) :
  Forall documented pre ->
  for_classes indent kind (pre ++ (name, None) :: post)
  = (flat_map (block indent kind) pre ++ heading name kind "-" 80,
     Err (OtherError "AttributeError")).
Proof.
  induction 1 as [| [n doc] pre Hd Hpre IH].
  - reflexivity.
  - destruct doc as [text |]; [| now destruct Hd].
    cbn [app for_classes content flat_map]. rewrite IH.
    unfold block at 2. cbn [fst snd]. now rewrite <- !app_assoc.
Qed.


End ListingFacts.
End ListingFacts.

(** ** The command line *)

Module CliFacts.

Import Cli EngineFacts EngineMore.

Section CliFacts.
Context {World Attrs : Type} {os : OS World}.
Variable config_dir : Path.
Variable load_rules : World -> result (list (Rule World Attrs)).
Variable opened : result unit.
Variable listing : Listing.Printed unit.

Local Abbreviation cli := (Cli.cli config_dir load_rules opened listing).

(** X10.  Every action run that [cli] causes is given [args['sim']] as
    its flag, so anything but [sim] is a real run.  With [config] or
    [list] the configuration is not read, no rule is executed and the
    world is left alone.  Otherwise the rules are read first: when reading
    them raises, that exception ends the run before any folder is listed;
    when it returns, the outcome is that of [execute_rules] on them. *)
Theorem cli_flag_and_modes (args : Args) (w : World) :
  (forall a p attrs s w',
      In (StEngine (EvRun a p attrs s w')) (steps (cli args w)) ->
      s = sim args)
  /\ (config args = true \/ list_command args = true ->
      Forall (fun st => is_engine st = false /\ is_load st = false)
        (steps (cli args w))
      /\ world_left (cli args w) = w)
  /\ (config args = false -> list_command args = false ->
      forall e, load_rules w = Err e ->
        cli args w
        = {| steps := [StLoadConfig w]; world_left := w;
             exit_value := Err e |})
  /\ (config args = false -> list_command args = false ->
      forall rules, load_rules w = Ok rules ->
        steps (cli args w)
        = StLoadConfig w
          :: map (@StEngine World Attrs)
               (trace (execute_rules rules (sim args) w))
        /\ world_left (cli args w)
           = world_after (execute_rules rules (sim args) w)
        /\ exit_value (cli args w)
           = value (execute_rules rules (sim args) w)).
Proof.
  unfold Cli.cli. split; [| split; [| split]].
  - intros a p attrs s w' Hin.
    destruct (config args); [destruct Hin as [H | [H | []]]; discriminate |].
    destruct (list_command args).
    { simpl in Hin. apply in_map_iff in Hin.
      destruct Hin as (x & H & _). discriminate. }
    destruct (load_rules w) as [rules | e];
      [| destruct Hin as [H | []]; discriminate].
    simpl in Hin. destruct Hin as [H | Hin]; [discriminate |].
    apply in_map_iff in Hin. destruct Hin as (ev & E & Hin).
    injection E as ->.
    pose proof (execute_rules_runs_with rules (sim args) w) as Hr.
    unfold runs_with in Hr. rewrite Forall_forall in Hr.
    exact (Hr _ Hin).
  - intros H. destruct (config args).
    { simpl. repeat constructor. }
    destruct (list_command args); [| destruct H; discriminate].
    simpl. split; trivial. apply Forall_map, Forall_forall. simpl. auto.
  - intros -> -> e ->. reflexivity.
  - intros -> -> rules ->. simpl. auto.
Qed.

End CliFacts.
End CliFacts.

(** ** More of the engine on the sample world *)

Module MoreScenarios.

Import MemFS Samples.

Lemma all_stops_at_first_mismatch_witness :
  value (all_match [Extension "txt"; Extension "jpg"; Unreadable] a_txt world0)
  = Ok false
  /\ exists fs1 f fs2 tr w',
       [Extension "txt"; Extension "jpg"; Unreadable] = fs1 ++ f :: fs2
       /\ trace (all_match [Extension "txt"; Extension "jpg"; Unreadable]
                   a_txt world0)
          = tr ++ [EvMatches f a_txt w']
       /\ calls tr = map (fun g => CMatches g a_txt) fs1
       /\ Forall said_yes tr
       /\ snd (matches f a_txt w') = Ok false.
Proof.
  split; [reflexivity |].
  apply (proj2 (@EngineMore.all_stops_at_first_mismatch World Attrs
                  [Extension "txt"; Extension "jpg"; Unreadable] a_txt world0)
           (Ok false) eq_refl).
  discriminate.
Defined.

Lemma jobs_have_dotted_names_witness :
  exists rule folder w' dir names name,
    In rule [jpg_rule; text_rule]
    /\ In folder (folders rule)
    /\ job_filters (job_of text_rule a_txt) = filters rule
    /\ job_actions (job_of text_rule a_txt) = actions rule
    /\ is_dir w' dir = Ok true
    /\ listdir w' dir = Ok names
    /\ In name names
    /\ In "."%char (list_ascii_of_string name)
    /\ a_txt = dir ++ [name].
Proof.
  destruct (@EngineMore.jobs_have_dotted_names World Attrs os
              [jpg_rule; text_rule] world0
              [job_of text_rule a_txt; job_of jpg_rule b_jpg]
              (job_of text_rule a_txt) eq_refl (or_introl eq_refl))
    as (rule & folder & w' & dir & names & name & Hr & Hf & Ef & Ea & _ & _
        & Hd & Hl & Hn & Hdot & Ep).
  exists rule, folder, w', dir, names, name. repeat split; trivial.
Defined.

Lemma passed_over_lost_rule :
  forall rule folder,
    In rule [lost_rule] -> In folder (folders rule) ->
    passed_over world0 folder.
Proof.
  intros rule folder [<- | []] [<- | [<- | [<- | []]]].
  - exists ["/"; "home"; "u"; "nowhere"]%string. split; [reflexivity |].
    left. reflexivity.
  - exists a_txt. split; [reflexivity |]. left. reflexivity.
  - exists ["/"; "home"; "u"; "vault"]%string. split; [reflexivity |].
    right. split; reflexivity.
Defined.

Lemma unlistable_folders_witness :
  execute_rules [lost_rule] false world0
  = {| world_after := world0;
       trace := [EvGlob "~/nowhere" world0; EvGlob "/home/u/dl/a.txt" world0;
                 EvGlob "~/vault" world0; EvPrint "Nothing to do."];
       value := Ok tt |}.
Proof.
  exact (@EngineMore.unlistable_folders_give_nothing_to_do World Attrs os
           [lost_rule] false world0 passed_over_lost_rule).
Defined.

Lemma glob_folder_fails_witness :
  glob_folder "~nobody/dl" world0 = Err RuntimeError
  /\ glob_folder "~/vault/inner" world0 = Err PermissionError.
Proof.
  split.
  - apply (@EngineMore.glob_folder_fails_iff World os world0
             "~nobody/dl" RuntimeError).
    left. exists "nobody"%string, ["dl"%string]. split; reflexivity.
  - apply (@EngineMore.glob_folder_fails_iff World os world0
             "~/vault/inner" PermissionError).
    right. left. exists ["/"; "home"; "u"; "vault"; "inner"]%string.
    split; reflexivity.
Defined.

Lemma honours_dry_run_samples : honours_dry_run [text_rule; twice_rule].
Proof.
  intros rule [<- | [<- | []]]; split.
  - intros f p w [<- | []]. split; reflexivity.
  - intros a p attrs w [<- | [<- | [<- | []]]]; reflexivity.
  - intros f p w [<- | []]. split; reflexivity.
  - intros a p attrs w [<- | [<- | [<- | []]]]; reflexivity.
Defined.

Lemma dry_run_witness :
  honours_dry_run [text_rule; twice_rule]
  /\ world_after (execute_rules [text_rule; twice_rule] true world0) = world0.
Proof.
  split; [exact honours_dry_run_samples |].
  exact (@EngineMore.dry_run_leaves_the_world World Attrs os
           [text_rule; twice_rule] world0 honours_dry_run_samples).
Defined.

Lemma log_lines_witness :
  logged (trace (execute_rules [jpg_rule; text_rule] true world0))
  = [a_txt; b_jpg].
Proof.
  destruct (@EngineMore.log_lines_follow_the_jobs World Attrs os
              [jpg_rule; text_rule] true world0
              [job_of text_rule a_txt; job_of jpg_rule b_jpg] eq_refl)
    as (_ & _ & H).
  exact (H eq_refl).
Defined.

Lemma heading_lines_witness :
  exists rule line,
    Listing.heading "Rename" "(action)" "-" 80 = [rule; line; EmptyString]
    /\ Listing.len rule = 80%Z
    /\ Listing.len line = 80%Z.
Proof.
  destruct (@ListingFacts.heading_lines "Rename" "(action)" "-" 80%Z
              eq_refl ltac:(lia))
    as (rule & line & E & Hr & Hfit & _).
  exists rule, line. split; [exact E |]. split; [exact Hr |].
  apply Hfit. vm_compute. discriminate.
Defined.


Lemma cli_flag_witness :
  Cli.exit_value
    (Cli.cli [] one_rule_config (Ok tt) ([], Ok tt) organize_sim world0)
  = Ok tt
  /\ Forall (fun st => Cli.is_engine st = false /\ Cli.is_load st = false)
       (Cli.steps
          (Cli.cli [] one_rule_config (Ok tt) ([], Ok tt) organize_config
             world0)).
Proof.
  destruct (@CliFacts.cli_flag_and_modes World Attrs os [] one_rule_config
              (Ok tt) ([], Ok tt) organize_sim world0)
    as (_ & _ & _ & Hrun).
  destruct (@CliFacts.cli_flag_and_modes World Attrs os [] one_rule_config
              (Ok tt) ([], Ok tt) organize_config world0)
    as (_ & Hmode & _).
  split.
  - destruct (Hrun eq_refl eq_refl [text_rule] eq_refl) as (_ & _ & ->).
    reflexivity.
  - apply Hmode. now left.
Defined.

End MoreScenarios.
